(** * jvozip: a Huffman byte-stream compressor (jvozip.py)

    A shallow embedding of [Packer], [Unpacker], [Node], [HuffmanTree] and
    [decompress], followed by the properties of the container format.

    Conventions of the embedding:
    - a Python [int] is a [Z]; a [bytes] object is a [list byte]; a [str] is a
      [list ascii] (the program only ever builds strings over the two
      characters 0 and 1, but the model keeps them as characters so that
      [int(s, 2)] can fail the way it does in Python);
    - a raised exception is a value of [exn]; every function that can raise
      returns a [result];
    - objects mutated in place ([Packer], [Unpacker]) are threaded explicitly;
    - the order in which Python iterates over [set(data)] is a parameter
      [set_iter] of the constructor, known only to visit each distinct byte
      once ([set_order]);
    - loops whose termination is not a plain countdown take a fuel argument
      and answer [OutOfFuel] when it is used up; the callers pass enough fuel
      and the lemmas [*_fuel] show that [OutOfFuel] is never the answer. *)

From Stdlib Require Import ZArith List Ascii Lia.
From Stdlib.Strings Require Import Byte.
From stdpp Require Import base list gmap strings.

Local Open Scope Z_scope.

(** ** Python values and exceptions *)

Abbreviation str := (list ascii).
Abbreviation bytes := (list byte).

(** The two assertion messages of the program. *)
Inductive assert_msg :=
| does_not_fit (content length : Z)   (* '{} does not fit in {} bits' *)
| no_data_left.                       (* 'trying to unpack but no data left' *)

Inductive exn :=
| AssertionError (msg : assert_msg)
| ValueError
| IndexError
| KeyError
| TypeError.

Inductive result (A : Type) :=
| Ok (a : A)
| Raise (e : exn)
| OutOfFuel.
Arguments Ok {A} a.
Arguments Raise {A} e.
Arguments OutOfFuel {A}.

#[global] Instance result_ret : MRet result := λ A a, Ok a.
#[global] Instance result_bind : MBind result := λ A B f r,
  match r with
  | Ok a => f a
  | Raise e => Raise e
  | OutOfFuel => OutOfFuel
  end.

#[global] Instance byte_eq_dec : EqDecision byte.
Proof.
  intros a b. destruct (decide (Byte.to_N a = Byte.to_N b)) as [H|H].
  - left. apply (f_equal Byte.of_N) in H. rewrite !Byte.of_to_N in H. congruence.
  - right. congruence.
Defined.

(** [len(x)] as a Python int. *)
Definition len {A} (l : list A) : Z := Z.of_nat (length l).

(** The int a byte of a [bytes] object iterates as. *)
Definition int_of_byte (b : byte) : Z := Z.of_N (Byte.to_N b).

(** [bytes([v])]: [ValueError] unless [v] is in [range(256)]. *)
Definition bytes1 (v : Z) : result bytes :=
  match (if 0 <=? v then Byte.of_N (Z.to_N v) else None) with
  | Some b => Ok [b]
  | None => Raise ValueError
  end.

(** [int(s, 2)] on a string of binary digits: [ValueError] on the empty
    string and on any other character. *)
Fixpoint int2_digits (s : str) (acc : Z) : result Z :=
  match s with
  | [] => Ok acc
  | c :: s' =>
      if decide (c = "0"%char) then int2_digits s' (2 * acc)
      else if decide (c = "1"%char) then int2_digits s' (2 * acc + 1)
      else Raise ValueError
  end.

Definition int2 (s : str) : result Z :=
  match s with
  | [] => Raise ValueError
  | _ => int2_digits s 0
  end.

(** [format(n, '0{width}b')]: the binary digits of [n], most significant
    first, padded on the left with 0 up to [width] characters. *)
Fixpoint bin_pos (p : positive) : str :=
  match p with
  | xH => ["1"%char]
  | xO q => bin_pos q ++ ["0"%char]
  | xI q => bin_pos q ++ ["1"%char]
  end.

Definition bin (n : N) : str :=
  match n with
  | N0 => ["0"%char]
  | Npos p => bin_pos p
  end.

Definition format_0b (width : nat) (n : N) : str :=
  let digits := bin n in
  replicate (width - length digits)%nat "0"%char ++ digits.

(** [s[i:j]] with Python's clamping of both bounds. *)
Definition slice_bound (k n : Z) : Z :=
  if k <? 0 then Z.max (k + n) 0 else Z.min k n.

Definition slice {A} (s : list A) (i j : Z) : list A :=
  let i' := slice_bound i (len s) in
  let j' := slice_bound j (len s) in
  take (Z.to_nat (j' - i')) (drop (Z.to_nat i') s).

(** ** class Packer *)

Record Packer := mkPacker { buffer : Z; bit_length : Z }.

Definition Packer_init : Packer := mkPacker 0 0.

(** [2 ** length] is a float for a negative [length], and [&] between an int
    and a float raises [TypeError]. *)
Definition pack (self : Packer) (content length : Z) : result Packer :=
  if length <? 0 then Raise TypeError
  else
    let CONTENT_MASK := 2 ^ length - 1 in
    if Z.land content CONTENT_MASK =? content then
      Ok {| buffer := Z.lor (Z.shiftl (buffer self) length) content;
            bit_length := bit_length self + length |}
    else Raise (AssertionError (does_not_fit content length)).

Definition BYTEMASK : Z := 2 ^ 8 - 1.

(** The [while filled_bytes > 0] loop of [flush]; [filled_bytes] counts
    down by one, so the loop is a recursion on it. *)
Fixpoint flush_loop (filled_bytes : nat) (buffer : Z) (packed_bytes : bytes)
  : result bytes :=
  match filled_bytes with
  | O => Ok packed_bytes
  | S n =>
      let shifts := (Z.of_nat filled_bytes - 1) * 8 in
      b ← bytes1 (Z.land (Z.shiftr buffer shifts) BYTEMASK);
      flush_loop n buffer (packed_bytes ++ b)
  end.

Definition pad_bits_of (bit_length : Z) : Z :=
  let r := bit_length mod 8 in
  8 - (if r =? 0 then 8 else r).   (* 8 - (bit_length % 8 or 8) *)

(** Returns the packed bytes and the packer as [flush] leaves it. *)
Definition flush (self : Packer) : result (bytes * Packer) :=
  let pad_bits := pad_bits_of (bit_length self) in
  let buffer1 := Z.shiftl (buffer self) pad_bits in
  let bit_length1 := bit_length self + pad_bits in
  let filled_bytes := bit_length1 / 8 in
  packed_bytes ← flush_loop (Z.to_nat filled_bytes) buffer1 [];
  Ok (packed_bytes, {| buffer := 0; bit_length := 0 |}).

(** ** class Unpacker *)

Record Unpacker := mkUnpacker {
  data : bytes;
  data_bit_string : str;
  bit_index : Z
}.

Definition format_08b (b : byte) : str := format_0b 8 (Byte.to_N b).

Definition bit_string_of (data : bytes) : str := concat (map format_08b data).

Definition Unpacker_init (data : bytes) : Unpacker :=
  {| data := data; data_bit_string := bit_string_of data; bit_index := 0 |}.

Definition is_empty (self : Unpacker) : bool :=
  len (data_bit_string self) <=? bit_index self.

Definition unpack (self : Unpacker) (length : Z) : result (str * Unpacker) :=
  if is_empty self then Raise (AssertionError no_data_left)
  else
    let bit_string :=
      slice (data_bit_string self) (bit_index self) (bit_index self + length) in
    Ok (bit_string,
        {| data := data self;
           data_bit_string := data_bit_string self;
           bit_index := bit_index self + length |}).

(** ** Insertion-ordered dictionaries

    [coding_dict] of [compress] is iterated with [items()], so the order of
    its keys matters: it is an association list with distinct keys in
    insertion order. *)

Section Dict.
Context {K V : Type} `{EqDecision K}.

(** [d[k] = v]: overwrite in place, or append a new key at the end. *)
Fixpoint dict_set (d : list (K * V)) (k : K) (v : V) : list (K * V) :=
  match d with
  | [] => [(k, v)]
  | (k', v') :: d' =>
      if decide (k' = k) then (k', v) :: d' else (k', v') :: dict_set d' k v
  end.

(** [d1.update(d2)]. *)
Definition dict_update (d1 d2 : list (K * V)) : list (K * V) :=
  fold_left (λ d kv, dict_set d kv.1 kv.2) d2 d1.

(** [d[k]], raising [KeyError] for a missing key. *)
Fixpoint dict_get (d : list (K * V)) (k : K) : result V :=
  match d with
  | [] => Raise KeyError
  | (k', v') :: d' => if decide (k' = k) then Ok v' else dict_get d' k
  end.
End Dict.

(** ** class Node *)

#[warnings="-register-all"]
Inductive Node := mkNode {
  content : option byte;
  occurences : Z;
  left : option Node;
  right : option Node
}.

(** [Node(occurences, content)] and [Node(occurences)]. *)
Definition Node_init (occurences : Z) (content : option byte) : Node :=
  mkNode content occurences None None.

Fixpoint Node_to_dict (self : Node) (path : option str) : list (byte * str) :=
  let path := match path with Some (c :: p) => c :: p | _ => [] end in
  match self with
  | mkNode (Some symbol) _ _ _ => [(symbol, path)]
  | mkNode None _ l r =>
      let left_dict :=
        match l with
        | Some n => Node_to_dict n (Some (path ++ ["0"%char]))
        | None => []
        end in
      let right_dict :=
        match r with
        | Some n => Node_to_dict n (Some (path ++ ["1"%char]))
        | None => []
        end in
      dict_update left_dict right_dict
  end.

(** ** class HuffmanTree *)

Record HuffmanTree := mkHuffmanTree { tree_data : bytes; root : Node }.

(** [data.count(symbol)]. *)
Definition count (data : bytes) (symbol : byte) : Z :=
  len (filter (λ b, b = symbol) data).

(** [min(nodes, key=lambda n: n.occurences)]: the first node with the least
    count, with its position; [ValueError] on an empty list. [Node] defines
    no [__eq__], so the [nodes.remove(node)] that follows compares object
    identity and deletes this very node: the model deletes by position. *)
Fixpoint min_node (nodes : list Node) : option (nat * Node) :=
  match nodes with
  | [] => None
  | n :: ns =>
      match min_node ns with
      | Some (i, m) =>
          if occurences m <? occurences n then Some (S i, m) else Some (O, n)
      | None => Some (O, n)
      end
  end.

Definition take_min (nodes : list Node) : result (Node * list Node) :=
  match min_node nodes with
  | Some (i, n) => Ok (n, delete i nodes)
  | None => Raise ValueError
  end.

(** The [while len(nodes) > 1] loop of [__init__]. *)
Fixpoint merge_loop (fuel : nat) (nodes : list Node) : result (list Node) :=
  if 1 <? len nodes then
    match fuel with
    | O => OutOfFuel
    | S fuel' =>
        '(node1, nodes) ← take_min nodes;
        '(node2, nodes) ← take_min nodes;
        let parent :=
          mkNode None (occurences node1 + occurences node2)
                 (Some node1) (Some node2) in
        merge_loop fuel' (nodes ++ [parent])
    end
  else Ok nodes.

Section HuffmanTree.
(** The order in which [for symbol in set(data)] visits the distinct
    bytes of [data]. Python leaves it unspecified; it is a parameter. *)
Variable set_iter : bytes → bytes.

Definition leaves_of (data : bytes) : list Node :=
  (λ symbol, Node_init (count data symbol) (Some symbol)) <$> set_iter data.

Definition HuffmanTree_init (data : bytes) : result HuffmanTree :=
  let nodes := leaves_of data in
  nodes ← merge_loop (length nodes) nodes;
  match nodes with
  | n :: _ => Ok {| tree_data := data; root := n |}
  | [] => Raise IndexError
  end.
End HuffmanTree.

Definition HuffmanTree_to_dict (self : HuffmanTree) : list (byte * str) :=
  Node_to_dict (root self) None.

(** The [for symbol, code in coding_dict.items()] loop of [compress]. *)
Fixpoint pack_items (packer : Packer) (items : list (byte * str))
  : result Packer :=
  match items with
  | [] => Ok packer
  | (symbol, code) :: rest =>
      packer ← pack packer (int_of_byte symbol) 8;
      packer ← pack packer (len code) 8;
      code_value ← int2 code;
      packer ← pack packer code_value (len code);
      pack_items packer rest
  end.

(** The [for symbol in self.data] loop of [compress]. *)
Fixpoint pack_data (packer : Packer) (coding_dict : list (byte * str))
    (data : bytes) : result Packer :=
  match data with
  | [] => Ok packer
  | symbol :: rest =>
      code ← dict_get coding_dict symbol;
      code_value ← int2 code;
      packer ← pack packer code_value (len code);
      pack_data packer coding_dict rest
  end.

Definition compress (self : HuffmanTree) : result bytes :=
  let packer := Packer_init in
  let coding_dict := HuffmanTree_to_dict self in
  packer ← pack packer (len coding_dict - 1) 8;
  packer ← pack_items packer coding_dict;
  packer ← pack packer (len (tree_data self)) 32;
  packer ← pack_data packer coding_dict (tree_data self);
  '(packed_bytes, _) ← flush packer;
  Ok packed_bytes.

(** ** decompress *)

(** The [while codes_to_read] loop: a countdown from [codes_to_read]. *)
Fixpoint read_codes (codes_to_read : nat) (unpacker : Unpacker)
    (coding_dict : gmap str bytes) : result (gmap str bytes * Unpacker) :=
  match codes_to_read with
  | O => Ok (coding_dict, unpacker)
  | S n =>
      '(s, unpacker) ← unpack unpacker 8;
      symbol ← int2 s;
      '(s, unpacker) ← unpack unpacker 8;
      code_length ← int2 s;
      '(code, unpacker) ← unpack unpacker code_length;
      b ← bytes1 symbol;
      read_codes n unpacker (<[code := b]> coding_dict)
  end.

(** The variables of the [while symbols_to_read] loop. *)
Record decoding := mkDecoding {
  unpacker : Unpacker;
  symbols_to_read : Z;
  decompressed : bytes;
  bit_string : str
}.

(** One iteration of the [while symbols_to_read] loop. *)
Definition read_bit (coding_dict : gmap str bytes) (st : decoding)
  : result decoding :=
  '(s, unpacker) ← unpack (unpacker st) 1;
  let bit_string := bit_string st ++ s in
  match coding_dict !! bit_string with
  | Some b =>
      Ok {| unpacker := unpacker;
            symbols_to_read := symbols_to_read st - 1;
            decompressed := decompressed st ++ b;
            bit_string := [] |}
  | None =>
      Ok {| unpacker := unpacker;
            symbols_to_read := symbols_to_read st;
            decompressed := decompressed st;
            bit_string := bit_string |}
  end.

(** The [while symbols_to_read] loop. *)
Fixpoint read_symbols (fuel : nat) (coding_dict : gmap str bytes)
    (st : decoding) : result bytes :=
  if symbols_to_read st =? 0 then Ok (decompressed st)
  else
    match fuel with
    | O => OutOfFuel
    | S fuel' =>
        st ← read_bit coding_dict st;
        read_symbols fuel' coding_dict st
    end.

(** Bits not yet read, plus one: more iterations than [read_symbols] can
    make, since each one reads a bit. *)
Definition bits_left (unpacker : Unpacker) : nat :=
  S (Z.to_nat (len (data_bit_string unpacker) - bit_index unpacker)).

(** [decompress] up to the payload: the code table, and the loop variables
    as they stand before the first iteration. *)
Definition read_header (data : bytes) : result (gmap str bytes * decoding) :=
  let unpacker := Unpacker_init data in
  '(s, unpacker) ← unpack unpacker 8;
  n ← int2 s;
  let codes_to_read := n + 1 in
  '(coding_dict, unpacker) ← read_codes (Z.to_nat codes_to_read) unpacker ∅;
  '(s, unpacker) ← unpack unpacker 32;
  symbols_to_read ← int2 s;
  Ok (coding_dict,
      {| unpacker := unpacker; symbols_to_read := symbols_to_read;
         decompressed := []; bit_string := [] |}).

Definition decompress (data : bytes) : result bytes :=
  '(coding_dict, st) ← read_header data;
  read_symbols (bits_left (unpacker st)) coding_dict st.

(** ** The program's two actions *)

(** [HuffmanTree(data).compress()]. *)
Definition encode (set_iter : bytes → bytes) (data : bytes) : result bytes :=
  tree ← HuffmanTree_init set_iter data;
  compress tree.

(** What [__main__] leaves on standard output, and the exception that
    ended it if one did. *)
Definition main_compress (set_iter : bytes → bytes) (stdin : bytes)
  : bytes * option exn :=
  match encode set_iter stdin with
  | Ok out => (out, None)
  | Raise e => ([], Some e)
  | OutOfFuel => ([], None)
  end.


(** ** Vocabulary of the statements *)

(** The [w] low bits of [v] as a string, most significant bit first. *)
Fixpoint bits_msb (w : nat) (v : Z) : str :=
  match w with
  | O => []
  | S n => (if Z.testbit v (Z.of_nat n) then "1"%char else "0"%char)
             :: bits_msb n v
  end.

(** What a packer has accumulated: its buffer read as [bit_length] bits. *)
Definition packer_bits (p : Packer) : str :=
  bits_msb (Z.to_nat (bit_length p)) (buffer p).

(** [v] has a set bit at a position at or above [w]. *)
Definition overflows (v w : Z) : Prop :=
  ∃ j, w <= j ∧ Z.testbit v j = true.

(** A string of binary digits. *)
Definition is_bits (s : str) : Prop :=
  Forall (λ c, c = "0"%char ∨ c = "1"%char) s.

(** [content] fits in [length] bits: the test [pack] asserts. *)
Definition fits (content length : Z) : Prop :=
  Z.land content (2 ^ length - 1) = content.

(** The nodes [__init__] builds: a leaf holds a symbol and has no child, an
    internal node holds no symbol and has both children. *)
Inductive huffman_node : Node → Prop :=
| hn_leaf occ symbol :
    huffman_node (mkNode (Some symbol) occ None None)
| hn_internal occ l r :
    huffman_node l → huffman_node r →
    huffman_node (mkNode None occ (Some l) (Some r)).

(** The symbols at the leaves, left to right. *)
Fixpoint leaf_symbols (n : Node) : list byte :=
  match n with
  | mkNode (Some symbol) _ _ _ => [symbol]
  | mkNode None _ l r =>
      match l with Some n' => leaf_symbols n' | None => [] end
      ++ match r with Some n' => leaf_symbols n' | None => [] end
  end.

(** The root-to-leaf paths below [path], 0 for left and 1 for right: what
    [to_dict] computes when no symbol occurs twice. *)
Fixpoint code_table (n : Node) (path : str) : list (byte * str) :=
  match n with
  | mkNode (Some symbol) _ _ _ => [(symbol, path)]
  | mkNode None _ l r =>
      match l with Some n' => code_table n' (path ++ ["0"%char]) | None => [] end
      ++ match r with Some n' => code_table n' (path ++ ["1"%char]) | None => [] end
  end.

(** What is known of the iteration order of [set(data)]: it visits every
    distinct byte of [data] once. *)
Definition set_order (set_iter : bytes → bytes) : Prop :=
  ∀ l, NoDup (set_iter l) ∧ ∀ x, x ∈ set_iter l ↔ x ∈ l.

(** [data] has at least two distinct byte values. *)
Definition two_symbols (data : bytes) : Prop :=
  ∃ a b, a ∈ data ∧ b ∈ data ∧ a ≠ b.

(** No code of two distinct symbols is a prefix of the other's. *)
Definition prefix_free (table : list (byte * str)) : Prop :=
  ∀ s1 c1 s2 c2,
    (s1, c1) ∈ table → (s2, c2) ∈ table → s1 ≠ s2 →
    ¬ c1 `prefix_of` c2 ∧ ¬ c2 `prefix_of` c1.

(** The input of the concrete scenario: 5 A, 4 B, 3 C, 2 D. *)
Definition ex_data : bytes :=
  [x41;x41;x41;x41;x41;x42;x42;x42;x42;x43;x43;x43;x44;x44]%byte.

(** *** The container format *)

(** A code that can be serialised: binary digits, at least one, and a length
    that fits the 8-bit length field. *)
Definition valid_code (c : str) : Prop :=
  is_bits c ∧ c ≠ [] ∧ len c < 256.

(** A code table for [data]: one entry per distinct byte of [data], every
    code serialisable, no code a prefix of another symbol's. *)
Record valid_table (table : list (byte * str)) (data : bytes) : Prop := {
  vt_keys : NoDup table.*1;
  vt_covers : ∀ b, b ∈ table.*1 ↔ b ∈ data;
  vt_size : 1 <= len table <= 256;
  vt_codes : ∀ s c, (s, c) ∈ table → valid_code c;
  vt_prefix_free : prefix_free table
}.

(** One entry of the serialised table: symbol, code length, code. *)
Definition entry_bits (e : byte * str) : str :=
  bits_msb 8 (int_of_byte e.1) ++ bits_msb 8 (len e.2) ++ e.2.

(** The code of [symbol] in [table]. *)
Definition code_of (table : list (byte * str)) (symbol : byte) : str :=
  match dict_get table symbol with
  | Ok c => c
  | _ => []
  end.

(** The bits of a blob, field by field, with [pad] bits of padding. *)
Definition container (table : list (byte * str)) (data : bytes) (pad : nat)
  : str :=
  bits_msb 8 (len table - 1)
  ++ (table ≫= entry_bits)
  ++ bits_msb 32 (len data)
  ++ (data ≫= code_of table)
  ++ replicate pad "0"%char.

(** An unpacker over [pre ++ post] whose cursor stands between the two. *)
Definition cursor (d : bytes) (pre post : str) : Unpacker :=
  {| data := d; data_bit_string := pre ++ post; bit_index := len pre |}.

(** The lookup table [decompress] rebuilds from the entries of [table],
    starting from [m]. *)
Definition table_map (table : list (byte * str)) (m : gmap str bytes)
  : gmap str bytes :=
  foldl (λ m e, <[e.2 := [e.1]]> m) m table.

(** [decompress(HuffmanTree(data).compress())]. *)
Definition roundtrip (set_iter : bytes → bytes) (data : bytes) : result bytes :=
  blob ← encode set_iter data;
  decompress blob.

(** An input one byte longer than the 32-bit count field can tell: 2^32 bytes
    A followed by one byte B. *)
Definition long_data : bytes :=
  replicate (Z.to_nat (2 ^ 32)) x41%byte ++ [x42%byte].

(** 2^32 bytes A. *)
Definition long_run : bytes := replicate (Z.to_nat (2 ^ 32)) x41%byte.

(** One iteration of the payload loop takes the loop variables from [st]
    to [st']. *)
Definition payload_step (coding_dict : gmap str bytes) (st st' : decoding)
  : Prop :=
  symbols_to_read st ≠ 0 ∧ read_bit coding_dict st = Ok st'.

(** Every code of the lookup table has at most 255 bits. *)
Definition keys_short (coding_dict : gmap str bytes) : Prop :=
  ∀ k v, coding_dict !! k = Some v → len k <= 255.

(** A blob cut short: one table entry (symbol A, code length 0) and a count
    field announcing one symbol, with no payload behind it. *)
Definition truncated_blob : bytes :=
  [x00; x41; x00; x00; x00; x00; x01]%byte.

(** *** Sequences of packs and of reads *)

(** [packer.pack(content, length)] for each field in turn, as [compress]
    does field after field. *)
Fixpoint pack_all (packer : Packer) (fields : list (Z * Z)) : result Packer :=
  match fields with
  | [] => Ok packer
  | (content, length) :: rest =>
      packer ← pack packer content length;
      pack_all packer rest
  end.

(** [int(unpacker.unpack(w), 2)] for each width in turn, as [decompress]
    reads its fixed-width fields. *)
Fixpoint unpack_ints (unpacker : Unpacker) (widths : list Z)
  : result (list Z) :=
  match widths with
  | [] => Ok []
  | w :: rest =>
      '(s, unpacker) ← unpack unpacker w;
      v ← int2 s;
      vs ← unpack_ints unpacker rest;
      Ok (v :: vs)
  end.

(** The sum of the widths of a sequence of fields. *)
Definition total_width (fields : list (Z * Z)) : Z :=
  foldr (λ f acc, f.2 + acc) 0 fields.

(** The bits a sequence of fields occupies. *)
Definition fields_bits (fields : list (Z * Z)) : str :=
  fields ≫= (λ f, bits_msb (Z.to_nat f.2) f.1).

(** *** Counts in the tree *)

(** The counts the constructor stores: a leaf holds the number of
    occurrences of its symbol in [data], an internal node the sum of the
    counts of its two children. *)
Inductive counted (data : bytes) : Node → Prop :=
| counted_leaf symbol :
    counted data (mkNode (Some symbol) (count data symbol) None None)
| counted_internal l r :
    counted data l → counted data r →
    counted data (mkNode None (occurences l + occurences r) (Some l) (Some r)).

(** The sum of the counts of a list of nodes. *)
Definition total_occurences (nodes : list Node) : Z :=
  foldr (λ n acc, occurences n + acc) 0 nodes.

(** *** Outcomes of decompress *)

(** A result that is a value or the no-data-left assertion of [unpack]. *)
Definition exhausted_or_ok {A} (r : result A) : Prop :=
  (∃ a, r = Ok a) ∨ r = Raise (AssertionError no_data_left).

(** An unpacker as the constructor makes it and [unpack] keeps it: binary
    digits, and a cursor that is not negative. *)
Definition unpacker_ok (u : Unpacker) : Prop :=
  is_bits (data_bit_string u) ∧ 0 <= bit_index u.

(** Every value of the lookup table is a single byte. *)
Definition values_single (coding_dict : gmap str bytes) : Prop :=
  ∀ k v, coding_dict !! k = Some v → ∃ b, v = [b].

(** The fields of a blob up to the end of the payload, without padding. *)
Definition container_fields (table : list (byte * str)) (data : bytes) : str :=
  bits_msb 8 (len table - 1)
  ++ (table ≫= entry_bits)
  ++ bits_msb 32 (len data)
  ++ (data ≫= code_of table).

(** A two-symbol table that no Huffman tree need produce: A = 0, B = 10. *)
Definition ab_table : list (byte * str) :=
  [(x41%byte, ["0"%char]); (x42%byte, ["1"%char; "0"%char])].

(** A blob holding the bytes A B A under [ab_table], its last bit and one
    more byte filled with ones. *)
Definition ab_blob : bytes :=
  [x01; x41; x01; x21; x01; x40; x00; x00; x00; x69; xff]%byte.

(** The blob of the two-byte input A B. *)
Definition ab_encoded : bytes :=
  [x01; x41; x01; x21; x00; xc0; x00; x00; x00; x90]%byte.

(** *** Node._content_for_label *)

(** [chr(b)] for a byte. *)
Definition chr (b : byte) : ascii := ascii_of_byte b.

Definition backslash : ascii := ascii_of_byte x5c.
Definition dquote : ascii := ascii_of_byte x22.

(** [s.replace(pattern, replacement)] for a pattern of one character. *)
Definition str_replace (s : str) (pattern : ascii) (replacement : str) : str :=
  s ≫= (λ c, if decide (c = pattern) then replacement else [c]).

(** Backslash becomes two backslashes, then a double quote becomes a
    backslash and a double quote. *)
Definition REPLACEMENTS : list (ascii * str) :=
  [(backslash, [backslash; backslash]); (dquote, [backslash; dquote])].

(** [chr(self.content) if self.content else ''] is empty for a node without
    content and for the byte 0, which Python takes for false. *)
Definition Node_content_for_label (self : Node) : str :=
  let label :=
    match content self with
    | Some b => if decide (int_of_byte b = 0) then [] else [chr b]
    | None => []
    end in
  fold_left (λ label pr, str_replace label pr.1 pr.2) REPLACEMENTS label.

(** Reading back the body of a quoted string written with these two
    escapes: backslash-backslash is a backslash, backslash-quote a quote;
    a quote on its own would end the string, a backslash before anything
    else is not one of the two escapes. *)
Fixpoint dot_unescape (s : str) : option str :=
  match s with
  | [] => Some []
  | c :: rest =>
      if decide (c = backslash) then
        match rest with
        | c' :: rest' =>
            if decide (c' = backslash ∨ c' = dquote)
            then (c' ::.) <$> dot_unescape rest'
            else None
        | [] => None
        end
      else if decide (c = dquote) then None
      else (c ::.) <$> dot_unescape rest
  end.

(** The sum of a list of integers. *)
Definition sumZ (l : list Z) : Z := foldr Z.add 0 l.

(** *** Weighted trees

    To compare the tree the constructor builds with every other binary tree
    over the same symbols, trees are stripped to their shape and the
    weights at their leaves. *)

Inductive wtree :=
| WL (w : Z)
| WN (l r : wtree).

(** The weights at the leaves, left to right. *)
Fixpoint frontier (t : wtree) : list Z :=
  match t with
  | WL w => [w]
  | WN l r => frontier l ++ frontier r
  end.

(** The sum of the weights at the leaves. *)
Fixpoint wsum (t : wtree) : Z :=
  match t with
  | WL w => w
  | WN l r => wsum l + wsum r
  end.

(** The weighted path length: every leaf counts its weight once for each
    edge between it and the root. *)
Fixpoint wcost (t : wtree) : Z :=
  match t with
  | WL _ => 0
  | WN l r => wcost l + wcost r + wsum l + wsum r
  end.

(** A path from a subtree up to the root: at each step, the side the
    subtree hangs on ([true] for left) and its sibling; nearest first. *)
Fixpoint plug (x : wtree) (fs : list (bool * wtree)) : wtree :=
  match fs with
  | [] => x
  | (true, s) :: fs' => plug (WN x s) fs'
  | (false, s) :: fs' => plug (WN s x) fs'
  end.

(** The leaves, the weight and the cost a path adds around a subtree. *)
Definition path_frontier (fs : list (bool * wtree)) : list Z :=
  fs ≫= (λ f, frontier f.2).

Definition path_wsum (fs : list (bool * wtree)) : Z :=
  sumZ ((λ f, wsum f.2) <$> fs).

Fixpoint path_cost (fs : list (bool * wtree)) : Z :=
  match fs with
  | [] => 0
  | (_, s) :: fs' => wcost s + wsum s * (1 + len fs') + path_cost fs'
  end.

(** The shape of a node of the tree, with [weight] at its leaves. *)
Fixpoint wtree_of (weight : byte → Z) (n : Node) : wtree :=
  match n with
  | mkNode (Some symbol) _ _ _ => WL (weight symbol)
  | mkNode None _ (Some l) (Some r) =>
      WN (wtree_of weight l) (wtree_of weight r)
  | mkNode None _ _ _ => WL 0
  end.

(** The sum of the counts held by the internal nodes below and at [n]. *)
Fixpoint internal_sum (n : Node) : Z :=
  match n with
  | mkNode (Some _) _ _ _ => 0
  | mkNode None occ l r =>
      occ
      + match l with Some n' => internal_sum n' | None => 0 end
      + match r with Some n' => internal_sum n' | None => 0 end
  end.

(** The number of payload bits [compress] writes for [data] with the codes
    of [table]. *)
Definition payload_len (table : list (byte * str)) (data : bytes) : Z :=
  sumZ ((λ b, len (code_of table b)) <$> data).

(** A lopsided tree over the symbols of [ex_data]: A next to the root, then
    B, then C and D. Only its shape matters, its counts are left at 0. *)
Definition lopsided_tree : Node :=
  mkNode None 0
    (Some (Node_init 0 (Some x41%byte)))
    (Some (mkNode None 0
       (Some (Node_init 0 (Some x42%byte)))
       (Some (mkNode None 0
          (Some (Node_init 0 (Some x43%byte)))
          (Some (Node_init 0 (Some x44%byte))))))).

(** Exchanging two byte values. *)
Definition swap_bytes (a b x : byte) : byte :=
  if decide (x = a) then b else if decide (x = b) then a else x.

(** * Properties *)

Lemma bind_Ok {A B} (a : A) (f : A → result B) : (Ok a ≫= f) = f a.
Proof. done. Qed.

(** ** Bits of integers *)

Lemma mask_is_ones w : 2 ^ w - 1 = Z.ones w.
Proof. rewrite Z.ones_equiv. lia. Qed.

Lemma fits_iff_bits v w :
  0 <= w →
  Z.land v (2 ^ w - 1) = v ↔ ∀ j, w <= j → Z.testbit v j = false.
Proof.
  intros Hw. rewrite mask_is_ones, Z.land_ones by done. split.
  - intros E j Hj. rewrite <- E. apply Z.mod_pow2_bits_high. lia.
  - intros Hhigh. apply Z.bits_inj'. intros n Hn.
    rewrite Z.testbit_mod_pow2 by done.
    destruct (Z.ltb_spec n w); simpl; [done|]. symmetry. apply Hhigh. lia.
Qed.

Lemma fits_iff_range v w :
  0 <= w → Z.land v (2 ^ w - 1) = v ↔ 0 <= v < 2 ^ w.
Proof.
  intros Hw. rewrite mask_is_ones, Z.land_ones by done.
  rewrite Z.mod_small_iff by lia. split; [|lia].
  intros [?|?]; [done|]. pose proof (Z.pow_pos_nonneg 2 w). lia.
Qed.

Lemma overflows_iff v w :
  0 <= w → overflows v w ↔ Z.land v (2 ^ w - 1) ≠ v.
Proof.
  intros Hw. rewrite fits_iff_bits by done. unfold overflows. split.
  - intros (j & Hj & Hb) Hall. rewrite Hall in Hb; done.
  - intros Hn. destruct (decide (0 <= v)) as [Hv|Hv].
    + destruct (decide (v = 0)) as [->|Hv0].
      { exfalso. apply Hn. intros. apply Z.bits_0. }
      exists (Z.log2 v). split; [|apply Z.bit_log2; lia].
      destruct (decide (w <= Z.log2 v)); [done|]. exfalso. apply Hn.
      intros j Hj. apply Z.bits_above_log2; lia.
    + exists (Z.max w (Z.log2 (Z.pred (- v)) + 1)). split; [lia|].
      apply Z.bits_above_log2_neg; lia.
Qed.

Lemma bits_msb_length w v : length (bits_msb w v) = w.
Proof. induction w; simpl; congruence. Qed.

Lemma bits_msb_ext w x y :
  (∀ j, 0 <= j < Z.of_nat w → Z.testbit x j = Z.testbit y j) →
  bits_msb w x = bits_msb w y.
Proof.
  induction w as [|w IH]; intros H; simpl; [done|].
  rewrite H by lia. f_equal. apply IH. intros; apply H; lia.
Qed.

Lemma bits_msb_app a b x y :
  (∀ j, Z.of_nat b <= j → Z.testbit y j = false) →
  bits_msb (a + b) (Z.lor (Z.shiftl x (Z.of_nat b)) y)
  = bits_msb a x ++ bits_msb b y.
Proof.
  intros Hy. induction a as [|a IH]; simpl.
  - apply bits_msb_ext. intros j Hj.
    rewrite Z.lor_spec, Z.shiftl_spec_low by lia. done.
  - rewrite IH. f_equal.
    rewrite Z.lor_spec, Z.shiftl_spec by lia.
    rewrite (Hy (Z.of_nat (a + b))) by lia.
    replace (Z.of_nat (a + b) - Z.of_nat b) with (Z.of_nat a) by lia.
    by rewrite orb_false_r.
Qed.

(** ** Packer.pack *)

Lemma pack_ok self v w :
  0 <= w → Z.land v (2 ^ w - 1) = v →
  pack self v w
  = Ok {| buffer := Z.lor (Z.shiftl (buffer self) w) v;
          bit_length := bit_length self + w |}.
Proof.
  intros Hw E. unfold pack.
  destruct (Z.ltb_spec w 0); [lia|]. by rewrite E, Z.eqb_refl.
Qed.

Lemma pack_fail self v w :
  0 <= w → Z.land v (2 ^ w - 1) ≠ v →
  pack self v w = Raise (AssertionError (does_not_fit v w)).
Proof.
  intros Hw E. unfold pack.
  destruct (Z.ltb_spec w 0); [lia|].
  destruct (Z.eqb_spec (Z.land v (2 ^ w - 1)) v); done.
Qed.

Lemma pack_bits self v w p :
  0 <= w → 0 <= bit_length self →
  pack self v w = Ok p →
  packer_bits p = packer_bits self ++ bits_msb (Z.to_nat w) v
  ∧ bit_length p = bit_length self + w.
Proof.
  intros Hw HL Hp.
  destruct (decide (Z.land v (2 ^ w - 1) = v)) as [E|E].
  2:{ rewrite pack_fail in Hp by done. discriminate. }
  rewrite pack_ok in Hp by done. injection Hp as <-.
  split; [|done]. unfold packer_bits; simpl.
  rewrite Z2Nat.inj_add by done.
  rewrite <- bits_msb_app.
  - by rewrite Z2Nat.id.
  - rewrite Z2Nat.id by done. by apply fits_iff_bits.
Qed.

(** C7. For a value [v] and a width [w] (a bit count, so non-negative) and a
    packer holding [bit_length >= 0] bits: [pack] fails with the does-not-fit
    assertion exactly when [v] has a set bit at position [w] or above;
    otherwise it succeeds, the accumulated bits are the old ones followed by
    the [w] low bits of [v], most significant first, and [bit_length] has
    grown by [w]. *)
Theorem pack_spec (self : Packer) (v w : Z) :
  0 <= w → 0 <= bit_length self →
  (pack self v w = Raise (AssertionError (does_not_fit v w)) ↔ overflows v w)
  ∧ (¬ overflows v w →
     ∃ p, pack self v w = Ok p
          ∧ packer_bits p = packer_bits self ++ bits_msb (Z.to_nat w) v
          ∧ bit_length p = bit_length self + w).
Proof.
  intros Hw HL. rewrite overflows_iff by done. split.
  - split.
    + intros Hp E. rewrite pack_ok in Hp by done. discriminate.
    + apply pack_fail; done.
  - intros Hfit. assert (E : Z.land v (2 ^ w - 1) = v).
    { destruct (decide (Z.land v (2 ^ w - 1) = v)); [done|]. tauto. }
    eexists. split; [by apply pack_ok|].
    eapply pack_bits; [done..|]. by apply pack_ok.
Qed.

Lemma pack_spec_witness :
  (pack (mkPacker 5 3) 2 2 = Raise (AssertionError (does_not_fit 2 2))
   ↔ overflows 2 2)
  ∧ (¬ overflows 2 2 →
     ∃ p, pack (mkPacker 5 3) 2 2 = Ok p
          ∧ packer_bits p = packer_bits (mkPacker 5 3) ++ bits_msb (Z.to_nat 2) 2
          ∧ bit_length p = bit_length (mkPacker 5 3) + 2).
Proof. apply (pack_spec (mkPacker 5 3) 2 2); simpl; lia. Defined.

(** ** Packer.flush *)

Lemma bits_msb_split a b x :
  bits_msb (a + b) x = bits_msb a (Z.shiftr x (Z.of_nat b)) ++ bits_msb b x.
Proof.
  induction a as [|a IH]; simpl; [done|].
  rewrite IH, Z.shiftr_spec by lia. by rewrite Nat2Z.inj_add.
Qed.

Lemma bits_msb_zero n : bits_msb n 0 = replicate n "0"%char.
Proof. induction n; simpl; [done|]. by rewrite Z.bits_0, IHn. Qed.

Lemma int_of_byte_range b : 0 <= int_of_byte b < 256.
Proof. unfold int_of_byte. pose proof (Byte.to_N_bounded b). lia. Qed.

Lemma bytes1_ok x :
  0 <= x < 256 → ∃ b, bytes1 x = Ok [b] ∧ int_of_byte b = x.
Proof.
  intros Hx. unfold bytes1. destruct (Z.leb_spec 0 x); [|lia].
  pose proof (Byte.to_of_N_option_map (Z.to_N x)) as Hm.
  destruct (N.leb_spec (Z.to_N x) 255); [|lia].
  destruct (Byte.of_N (Z.to_N x)) as [b|] eqn:Hb; [|done].
  exists b. split; [done|]. apply Byte.to_of_N in Hb.
  unfold int_of_byte. lia.
Qed.

Lemma bytes1_int_of_byte b : bytes1 (int_of_byte b) = Ok [b].
Proof.
  unfold bytes1, int_of_byte. destruct (Z.leb_spec 0 (Z.of_N (to_N b))); [|lia].
  by rewrite N2Z.id, Byte.of_to_N.
Qed.

Lemma format_08b_bits b : format_08b b = bits_msb 8 (int_of_byte b).
Proof. destruct b; reflexivity. Qed.

Lemma format_08b_length b : length (format_08b b) = 8%nat.
Proof. by rewrite format_08b_bits, bits_msb_length. Qed.

Lemma bit_string_of_app d1 d2 :
  bit_string_of (d1 ++ d2) = bit_string_of d1 ++ bit_string_of d2.
Proof. unfold bit_string_of. by rewrite map_app, concat_app. Qed.

Lemma bit_string_of_length d : len (bit_string_of d) = 8 * len d.
Proof.
  unfold len. induction d as [|b d IH]; [done|].
  change (bit_string_of (b :: d)) with (format_08b b ++ bit_string_of d).
  rewrite length_app, format_08b_length. simpl length. lia.
Qed.

Lemma flush_loop_spec n buf acc :
  ∃ out, flush_loop n buf acc = Ok (acc ++ out)
         ∧ length out = n
         ∧ bit_string_of out = bits_msb (8 * n) buf.
Proof.
  revert acc. induction n as [|n IH]; intros acc.
  - exists []. by rewrite app_nil_r.
  - cbn [flush_loop].
    destruct (bytes1_ok (Z.land (Z.shiftr buf ((Z.of_nat (S n) - 1) * 8)) BYTEMASK))
      as (b & -> & Hb).
    { unfold BYTEMASK. rewrite mask_is_ones, Z.land_ones by lia.
      apply Z.mod_pos_bound. lia. }
    cbn [mbind result_bind].
    destruct (IH (acc ++ [b])) as (out & -> & Hlen & Hbits).
    exists (b :: out). split; [by rewrite <- app_assoc|]. split; [simpl; lia|].
    change (bit_string_of (b :: out)) with (format_08b b ++ bit_string_of out).
    rewrite Hbits, format_08b_bits, Hb.
    replace (8 * S n)%nat with (8 + 8 * n)%nat by lia.
    rewrite bits_msb_split. f_equal. apply bits_msb_ext. intros j Hj.
    unfold BYTEMASK. rewrite mask_is_ones, Z.land_ones by lia.
    rewrite Z.testbit_mod_pow2 by lia.
    destruct (Z.ltb_spec j 8); [|lia]. simpl. do 2 f_equal. lia.
Qed.

Lemma pad_bits_of_eq L : pad_bits_of L = (8 - L mod 8) mod 8.
Proof.
  unfold pad_bits_of. pose proof (Z.mod_pos_bound L 8).
  destruct (Z.eqb_spec (L mod 8) 0) as [->|]; [done|].
  rewrite (Z.mod_small (8 - L mod 8)); lia.
Qed.

Lemma pad_bits_of_range L :
  0 <= pad_bits_of L < 8 ∧ (L + pad_bits_of L) mod 8 = 0.
Proof.
  unfold pad_bits_of. pose proof (Z.mod_pos_bound L 8).
  destruct (Z.eqb_spec (L mod 8) 0) as [E|E].
  - rewrite Z.sub_diag, Z.add_0_r. lia.
  - split; [lia|]. rewrite (Z.div_mod L 8) at 1 by lia.
    replace (8 * (L / 8) + L mod 8 + (8 - L mod 8)) with ((L / 8 + 1) * 8) by lia.
    apply Z.mod_mul. lia.
Qed.

Lemma flush_bits self :
  0 <= bit_length self →
  ∃ out, flush self = Ok (out, Packer_init)
    ∧ 8 * len out = bit_length self + pad_bits_of (bit_length self)
    ∧ bit_string_of out
      = packer_bits self
        ++ replicate (Z.to_nat (pad_bits_of (bit_length self))) "0"%char.
Proof.
  intros HL. unfold flush.
  destruct (pad_bits_of_range (bit_length self)) as [Hpad Hmod].
  set (pad := pad_bits_of (bit_length self)) in *.
  set (n := Z.to_nat ((bit_length self + pad) / 8)).
  destruct (flush_loop_spec n (Z.shiftl (buffer self) pad) []) as (out & -> & Hn & Hb).
  exists out. cbn. split; [done|].
  assert (Hdiv : bit_length self + pad = 8 * ((bit_length self + pad) / 8)).
  { apply Z.div_exact; lia. }
  assert (0 <= (bit_length self + pad) / 8) by (apply Z.div_pos; lia).
  split; [unfold len; lia|].
  rewrite Hb. unfold packer_bits.
  replace (8 * n)%nat with (Z.to_nat (bit_length self) + Z.to_nat pad)%nat by lia.
  rewrite <- bits_msb_zero.
  rewrite <- bits_msb_app by (intros; apply Z.bits_0).
  by rewrite Z.lor_0_r, Z2Nat.id by lia.
Qed.

(** C6. For a packer holding [L >= 0] bits, [flush] pads with
    [(8 - L mod 8) mod 8] zero bits, fewer than 8; returns [(L + pad) / 8]
    bytes which, read most significant byte (and bit) first, are the
    accumulated bits followed by the padding; and leaves the packer as a
    fresh one. *)
Theorem flush_spec (self : Packer) :
  0 <= bit_length self →
  let pad := (8 - bit_length self mod 8) mod 8 in
  0 <= pad < 8
  ∧ ∃ out, flush self = Ok (out, Packer_init)
      ∧ 8 * len out = bit_length self + pad
      ∧ bit_string_of out
        = packer_bits self ++ replicate (Z.to_nat pad) "0"%char.
Proof.
  intros HL pad. subst pad. rewrite <- pad_bits_of_eq.
  split; [apply pad_bits_of_range|]. by apply flush_bits.
Qed.

Lemma flush_spec_witness :
  let self := mkPacker 5 3 in
  let pad := (8 - bit_length self mod 8) mod 8 in
  0 <= pad < 8
  ∧ ∃ out, flush self = Ok (out, Packer_init)
      ∧ 8 * len out = bit_length self + pad
      ∧ bit_string_of out
        = packer_bits self ++ replicate (Z.to_nat pad) "0"%char.
Proof. apply (flush_spec (mkPacker 5 3)). simpl. lia. Defined.

(** ** Unpacker.unpack *)

Lemma slice_from {A} (s : list A) i w :
  0 <= i → 0 <= w →
  slice s i (i + w) = take (Z.to_nat w) (drop (Z.to_nat i) s).
Proof.
  intros Hi Hw. unfold slice, slice_bound, len.
  destruct (Z.ltb_spec i 0); [lia|]. destruct (Z.ltb_spec (i + w) 0); [lia|].
  destruct (decide (i <= Z.of_nat (length s))) as [Hin|Hout].
  - rewrite (Z.min_l i) by done.
    destruct (decide (i + w <= Z.of_nat (length s))).
    + rewrite Z.min_l by done. do 2 f_equal. lia.
    + rewrite Z.min_r by lia.
      rewrite !take_ge; [done|rewrite length_drop; lia..].
  - rewrite !(drop_ge s) by lia. by rewrite !take_nil.
Qed.

Lemma unpack_empty u w :
  len (data_bit_string u) <= bit_index u →
  unpack u w = Raise (AssertionError no_data_left).
Proof.
  intros H. unfold unpack, is_empty.
  destruct (Z.leb_spec (len (data_bit_string u)) (bit_index u)); [done|lia].
Qed.

Lemma unpack_nonempty u w :
  0 <= bit_index u → 0 <= w →
  bit_index u < len (data_bit_string u) →
  unpack u w
  = Ok (take (Z.to_nat w) (drop (Z.to_nat (bit_index u)) (data_bit_string u)),
        {| data := data u; data_bit_string := data_bit_string u;
           bit_index := bit_index u + w |}).
Proof.
  intros Hi Hw H. unfold unpack, is_empty.
  destruct (Z.leb_spec (len (data_bit_string u)) (bit_index u)); [lia|].
  by rewrite slice_from.
Qed.

(** Reading [s] when the bit string is [pre ++ s ++ post] and the cursor
    stands after [pre]. *)
Lemma unpack_at d pre s post :
  s ≠ [] →
  unpack {| data := d; data_bit_string := pre ++ s ++ post;
            bit_index := len pre |} (len s)
  = Ok (s, {| data := d; data_bit_string := pre ++ s ++ post;
              bit_index := len (pre ++ s) |}).
Proof.
  intros Hs. rewrite unpack_nonempty; simpl; unfold len; try lia.
  - rewrite !Nat2Z.id, drop_app_length, take_app_length.
    do 3 f_equal. rewrite length_app. lia.
  - rewrite !length_app. destruct s; [done|simpl; lia].
Qed.

(** C3, as the code has it. With the cursor at [bit_index >= 0] and a width
    [w >= 0]: [unpack] fails with the no-data-left assertion when no unread
    bit remains; as soon as one does, it returns the next [w] bits or, if
    fewer remain, just those (a result shorter than [w]), and moves the
    cursor forward by [w] in both cases. *)
Theorem unpack_spec (u : Unpacker) (w : Z) :
  0 <= bit_index u → 0 <= w →
  let remaining := len (data_bit_string u) - bit_index u in
  (remaining <= 0 → unpack u w = Raise (AssertionError no_data_left))
  ∧ (0 < remaining →
     ∃ s u', unpack u w = Ok (s, u')
       ∧ s = take (Z.to_nat w) (drop (Z.to_nat (bit_index u)) (data_bit_string u))
       ∧ len s = Z.min w remaining
       ∧ bit_index u' = bit_index u + w
       ∧ data_bit_string u' = data_bit_string u).
Proof.
  intros Hi Hw remaining. subst remaining. split.
  - intros H. apply unpack_empty. lia.
  - intros H. rewrite unpack_nonempty by lia.
    eexists _, _. split; [done|]. split; [done|]. split; [|done].
    unfold len in *. rewrite length_take, length_drop. lia.
Qed.

Lemma unpack_spec_witness :
  let u := Unpacker_init [x00%byte] in
  let remaining := len (data_bit_string u) - bit_index u in
  (remaining <= 0 → unpack u 16 = Raise (AssertionError no_data_left))
  ∧ (0 < remaining →
     ∃ s u', unpack u 16 = Ok (s, u')
       ∧ s = take (Z.to_nat 16) (drop (Z.to_nat (bit_index u)) (data_bit_string u))
       ∧ len s = Z.min 16 remaining
       ∧ bit_index u' = bit_index u + 16
       ∧ data_bit_string u' = data_bit_string u).
Proof. apply (unpack_spec (Unpacker_init [x00%byte]) 16); simpl; lia. Defined.

(** C3, as stated, fails: on the one-byte stream 00, 8 unread bits remain,
    [unpack(16)] does not fail and returns those 8 bits only. *)
Lemma unpack_short_result :
  let u := Unpacker_init [x00%byte] in
  len (data_bit_string u) - bit_index u < 16
  ∧ ∃ s u', unpack u 16 = Ok (s, u') ∧ len s = 8 ∧ bit_index u' = 16.
Proof. split; [by vm_compute|]. eexists _, _. by vm_compute. Qed.

(** ** int(s, 2) and binary strings *)

Lemma bits_msb_is_bits w v : is_bits (bits_msb w v).
Proof.
  induction w; simpl; constructor; [|done].
  destruct (Z.testbit v (Z.of_nat w)); auto.
Qed.

Lemma int2_digits_bits w v acc :
  int2_digits (bits_msb w v) acc = Ok (acc * 2 ^ Z.of_nat w + v mod 2 ^ Z.of_nat w).
Proof.
  revert acc. induction w as [|w IH]; intros acc; simpl bits_msb.
  - simpl. rewrite Z.mod_1_r. f_equal. lia.
  - assert (Hsplit : v mod 2 ^ Z.of_nat (S w)
                     = v mod 2 ^ Z.of_nat w
                       + 2 ^ Z.of_nat w * Z.b2z (Z.testbit v (Z.of_nat w))).
    { rewrite Z.testbit_spec' by lia.
      rewrite Nat2Z.inj_succ, Z.pow_succ_r by lia.
      rewrite (Z.mul_comm 2). apply Z.rem_mul_r; lia. }
    rewrite Hsplit, Nat2Z.inj_succ, Z.pow_succ_r by lia.
    destruct (Z.testbit v (Z.of_nat w)); simpl int2_digits;
      rewrite IH; f_equal; simpl Z.b2z; lia.
Qed.

Lemma int2_bits w v :
  (0 < w)%nat → int2 (bits_msb w v) = Ok (v mod 2 ^ Z.of_nat w).
Proof.
  intros Hw. destruct w as [|w]; [lia|].
  unfold int2. rewrite <- (Z.add_0_l (v mod _)).
  rewrite <- (Z.mul_0_l (2 ^ Z.of_nat (S w))), <- int2_digits_bits. done.
Qed.

Lemma fits_mod v w : 0 <= w → fits v w → v mod 2 ^ w = v.
Proof. unfold fits. intros Hw. by rewrite mask_is_ones, Z.land_ones. Qed.

Lemma fits_range v w : 0 <= w → 0 <= v < 2 ^ w → fits v w.
Proof. intros. by apply fits_iff_range. Qed.

(** Every binary string is the bits of a number that fits in its length. *)
Lemma bits_repr s :
  is_bits s → ∃ v, fits v (len s) ∧ bits_msb (length s) v = s.
Proof.
  induction 1 as [|c s Hc _ (v & Hv & Hs)].
  - exists 0. split; [|done]. unfold fits. apply Z.land_0_l.
  - set (b := if decide (c = "1"%char) then 1 else 0).
    assert (Hb : (if Z.testbit b 0 then "1"%char else "0"%char) = c).
    { unfold b. destruct Hc as [-> | ->]; done. }
    assert (Hb1 : ∀ j, 1 <= j → Z.testbit b j = false).
    { intros j Hj. unfold b. destruct (decide _);
        [apply Z.bits_above_log2; simpl; lia | apply Z.bits_0]. }
    exists (Z.lor (Z.shiftl b (len s)) v). split.
    + unfold fits, len in *. apply fits_iff_bits; [lia|].
      intros j Hj. simpl length in Hj.
      rewrite Z.lor_spec, Z.shiftl_spec by lia.
      rewrite Hb1 by lia. simpl.
      apply (proj1 (fits_iff_bits v (Z.of_nat (length s)) ltac:(lia))); [done|lia].
    + change (length (c :: s)) with (1 + length s)%nat.
      unfold len. rewrite bits_msb_app.
      * cbn [bits_msb app]. change (Z.of_nat 0) with 0. by rewrite Hb, Hs.
      * by apply fits_iff_bits; [lia|].
Qed.

Lemma int2_code c :
  is_bits c → c ≠ [] →
  ∃ v, int2 c = Ok v ∧ fits v (len c) ∧ bits_msb (length c) v = c.
Proof.
  intros Hc Hne. destruct (bits_repr c Hc) as (v & Hv & Hs).
  exists v. split; [|done]. rewrite <- Hs at 1.
  rewrite int2_bits by (destruct c; [done|simpl; lia]).
  f_equal. apply fits_mod; [unfold len; lia|done].
Qed.

Lemma int2_field (w : nat) x :
  (0 < w)%nat → 0 <= x < 2 ^ Z.of_nat w → int2 (bits_msb w x) = Ok x.
Proof. intros. rewrite int2_bits by done. f_equal. apply Z.mod_small. lia. Qed.

(** ** Dictionaries *)

Section DictFacts.
Context {K V : Type} `{EqDecision K}.
Implicit Types d : list (K * V).

Lemma dict_set_fresh d k v : k ∉ d.*1 → dict_set d k v = d ++ [(k, v)].
Proof.
  induction d as [|[k' v'] d IH]; simpl; [done|].
  rewrite not_elem_of_cons. intros [Hne Hnot].
  destruct (decide (k' = k)); [congruence|]. by rewrite IH.
Qed.

Lemma dict_update_fresh d1 d2 :
  NoDup d2.*1 → (∀ k, k ∈ d2.*1 → k ∉ d1.*1) →
  dict_update d1 d2 = d1 ++ d2.
Proof.
  unfold dict_update. revert d1.
  induction d2 as [|[k v] d2 IH]; intros d1 Hnd Hdisj; simpl.
  - by rewrite app_nil_r.
  - simpl in Hnd. apply NoDup_cons in Hnd as [Hk Hnd].
    rewrite dict_set_fresh by (apply Hdisj; simpl; left).
    rewrite IH; [by rewrite <- app_assoc|done|].
    intros k' Hk'. rewrite fmap_app, elem_of_app. simpl.
    rewrite list_elem_of_singleton. intros [Hin | ->]; [|done].
    revert Hin. apply Hdisj. simpl. by right.
Qed.

Lemma dict_get_in d k v :
  NoDup d.*1 → (k, v) ∈ d → dict_get d k = Ok v.
Proof.
  induction d as [|[k' v'] d IH]; simpl; intros Hnd Hin.
  - by apply elem_of_nil in Hin.
  - apply NoDup_cons in Hnd as [Hk Hnd].
    apply elem_of_cons in Hin as [Heq | Hin].
    + injection Heq as -> ->. by rewrite decide_True.
    + rewrite decide_False; [by apply IH|].
      intros ->. apply Hk. apply list_elem_of_fmap. by exists (k, v).
Qed.
End DictFacts.

(** ** Node.to_dict *)

Lemma to_dict_None n : Node_to_dict n None = Node_to_dict n (Some []).
Proof. by destruct n. Qed.

Lemma leaf_symbols_nonempty n : huffman_node n → leaf_symbols n ≠ [].
Proof.
  induction 1 as [|occ l r Hl IHl Hr IHr]; simpl; [done|].
  destruct (leaf_symbols l); [done|]. done.
Qed.

Lemma code_table_fst n path :
  huffman_node n → (code_table n path).*1 = leaf_symbols n.
Proof.
  intros Hn. revert path.
  induction Hn as [|occ l r Hl IHl Hr IHr]; intros path; simpl; [done|].
  by rewrite fmap_app, IHl, IHr.
Qed.

Lemma to_dict_code_table n path :
  huffman_node n → NoDup (leaf_symbols n) →
  Node_to_dict n (Some path) = code_table n path.
Proof.
  intros Hn. revert path.
  induction Hn as [|occ l r Hl IHl Hr IHr]; intros path Hnd.
  - simpl. by destruct path.
  - simpl in Hnd. apply NoDup_app in Hnd as (Hndl & Hdisj & Hndr).
    assert (Hpath : match Some path with Some (c :: p) => c :: p | _ => [] end
                    = path) by by destruct path.
    cbn [Node_to_dict code_table]. rewrite Hpath.
    rewrite IHl, IHr by done.
    apply dict_update_fresh.
    + by rewrite code_table_fst.
    + intros k. rewrite !code_table_fst by done. intros Hk Hk'.
      by apply (Hdisj k).
Qed.

Lemma code_table_prefix n path s c :
  huffman_node n → (s, c) ∈ code_table n path → path `prefix_of` c.
Proof.
  intros Hn. revert path.
  induction Hn as [|occ l r Hl IHl Hr IHr]; intros path; simpl.
  - rewrite list_elem_of_singleton. by intros [= -> ->].
  - rewrite elem_of_app. intros [Hin | Hin];
      [apply IHl in Hin | apply IHr in Hin];
      (etrans; [|exact Hin]); by apply prefix_app_r.
Qed.

Lemma code_table_is_bits n path s c :
  huffman_node n → is_bits path → (s, c) ∈ code_table n path → is_bits c.
Proof.
  intros Hn. revert path.
  induction Hn as [|occ l r Hl IHl Hr IHr]; intros path Hp; simpl.
  - rewrite list_elem_of_singleton. by intros [= -> ->].
  - rewrite elem_of_app. intros [Hin | Hin];
      [eapply IHl, Hin | eapply IHr, Hin];
      apply Forall_app; (split; [done|]); apply Forall_singleton; auto.
Qed.

Lemma code_table_length n path s c :
  huffman_node n → (s, c) ∈ code_table n path →
  (length c + 1 ≤ length path + length (leaf_symbols n))%nat.
Proof.
  intros Hn. revert path.
  induction Hn as [|occ l r Hl IHl Hr IHr]; intros path; simpl.
  - rewrite list_elem_of_singleton. intros [= -> ->]. lia.
  - pose proof (leaf_symbols_nonempty l Hl).
    pose proof (leaf_symbols_nonempty r Hr).
    rewrite length_app.
    destruct (leaf_symbols l), (leaf_symbols r); try done. simpl in *.
    rewrite elem_of_app. intros [Hin | Hin];
      [apply IHl in Hin | apply IHr in Hin];
      rewrite length_app in Hin; simpl in Hin; lia.
Qed.

Lemma diverging_paths path x y :
  ¬ (path ++ ["0"%char]) ++ x `prefix_of` (path ++ ["1"%char]) ++ y
  ∧ ¬ (path ++ ["1"%char]) ++ y `prefix_of` (path ++ ["0"%char]) ++ x.
Proof.
  split; intros [k Hk]; rewrite <- !app_assoc in Hk;
    apply app_inv_head in Hk; discriminate.
Qed.

Lemma code_table_prefix_free n path :
  huffman_node n → prefix_free (code_table n path).
Proof.
  intros Hn. revert path.
  induction Hn as [|occ l r Hl IHl Hr IHr]; intros path s1 c1 s2 c2; simpl.
  - rewrite !list_elem_of_singleton. intros [= -> ->] [= -> ->]. done.
  - rewrite !elem_of_app. intros [H1 | H1] [H2 | H2] Hne.
    + by eapply IHl.
    + apply code_table_prefix in H1 as [x ->]; [|done].
      apply code_table_prefix in H2 as [y ->]; [|done].
      apply diverging_paths.
    + apply code_table_prefix in H1 as [x ->]; [|done].
      apply code_table_prefix in H2 as [y ->]; [|done].
      by destruct (diverging_paths path y x).
    + by eapply IHr.
Qed.

(** ** HuffmanTree.__init__ *)

Lemma min_node_lookup nodes i n :
  min_node nodes = Some (i, n) → nodes !! i = Some n.
Proof.
  revert i n. induction nodes as [|m ms IH]; intros i n; simpl; [done|].
  destruct (min_node ms) as [[j k]|].
  - destruct (occurences k <? occurences m); intros [= <- <-]; [by apply IH|done].
  - by intros [= <- <-].
Qed.

Lemma min_node_some nodes :
  nodes ≠ [] → ∃ i n, min_node nodes = Some (i, n).
Proof.
  destruct nodes as [|m ms]; [done|]. intros _. simpl.
  destruct (min_node ms) as [[j k]|]; [|by eauto].
  destruct (occurences k <? occurences m); eauto.
Qed.

Lemma take_min_perm nodes :
  nodes ≠ [] → ∃ n rest, take_min nodes = Ok (n, rest) ∧ nodes ≡ₚ n :: rest.
Proof.
  intros Hne. destruct (min_node_some nodes Hne) as (i & n & Hmin).
  exists n, (delete i nodes). unfold take_min. rewrite Hmin. split; [done|].
  apply delete_Permutation. by apply min_node_lookup.
Qed.

Lemma merge_loop_spec fuel nodes :
  (length nodes ≤ S fuel)%nat → nodes ≠ [] → Forall huffman_node nodes →
  ∃ root, merge_loop fuel nodes = Ok [root]
          ∧ huffman_node root
          ∧ leaf_symbols root ≡ₚ nodes ≫= leaf_symbols.
Proof.
  revert nodes. induction fuel as [|fuel IH]; intros nodes Hlen Hne Hall.
  - destruct nodes as [|n [|??]]; [done| |simpl in Hlen; lia].
    exists n. simpl. rewrite Forall_singleton in Hall.
    by rewrite app_nil_r.
  - destruct nodes as [|n [|n' ns]]; [done| |].
    { exists n. simpl. rewrite Forall_singleton in Hall. by rewrite app_nil_r. }
    set (nodes := n :: n' :: ns) in *.
    assert (Hgt : (1 <? len nodes) = true).
    { apply Z.ltb_lt. unfold len, nodes. simpl. lia. }
    cbn [merge_loop]. rewrite Hgt. clear Hgt.
    destruct (take_min_perm nodes Hne) as (n1 & rest1 & -> & Hp1).
    cbn [mbind result_bind].
    assert (Hne1 : rest1 ≠ []).
    { intros ->. apply Permutation_length in Hp1. simpl in Hp1. lia. }
    destruct (take_min_perm rest1 Hne1) as (n2 & rest2 & -> & Hp2).
    cbn [mbind result_bind].
    rewrite Hp2 in Hp1. rewrite Hp1 in Hall.
    apply Forall_cons in Hall as [Hn1 Hall].
    apply Forall_cons in Hall as [Hn2 Hall].
    destruct (IH (rest2 ++ [mkNode None (occurences n1 + occurences n2)
                               (Some n1) (Some n2)])) as (root & -> & Hroot & Hp).
    + apply Permutation_length in Hp1. rewrite length_app. simpl in *. lia.
    + by destruct rest2.
    + apply Forall_app. split; [done|]. apply Forall_singleton. by constructor.
    + exists root. split; [done|]. split; [done|].
      rewrite Hp, Hp1, bind_app, !bind_cons. simpl. rewrite app_nil_r.
      by rewrite (comm (++)), <- app_assoc.
Qed.

Section InitFacts.
Variable set_iter : bytes → bytes.
Hypothesis set_iter_order : set_order set_iter.

Lemma set_iter_NoDup data : NoDup (set_iter data).
Proof. apply set_iter_order. Qed.

Lemma set_iter_elem data b : b ∈ set_iter data ↔ b ∈ data.
Proof. apply set_iter_order. Qed.

Lemma set_iter_nonempty data : data ≠ [] → set_iter data ≠ [].
Proof.
  destruct data as [|b data]; [done|]. intros _ E.
  assert (Hb : b ∈ set_iter (b :: data)) by (apply set_iter_elem; left).
  rewrite E in Hb. by apply elem_of_nil in Hb.
Qed.

Lemma set_iter_nil : set_iter [] = [].
Proof.
  destruct (set_iter []) as [|b l] eqn:E; [done|].
  assert (Hb : b ∈ set_iter []) by (rewrite E; left).
  rewrite set_iter_elem in Hb. by apply elem_of_nil in Hb.
Qed.

Lemma leaves_of_huffman data : Forall huffman_node (leaves_of set_iter data).
Proof. unfold leaves_of. apply Forall_fmap, Forall_true. constructor. Qed.

Lemma leaves_of_symbols data :
  leaves_of set_iter data ≫= leaf_symbols = set_iter data.
Proof.
  unfold leaves_of. induction (set_iter data) as [|b l IH]; [done|].
  rewrite fmap_cons, bind_cons, IH. done.
Qed.

Lemma HuffmanTree_init_ok data :
  data ≠ [] →
  ∃ root, HuffmanTree_init set_iter data
          = Ok {| tree_data := data; root := root |}
          ∧ huffman_node root
          ∧ leaf_symbols root ≡ₚ set_iter data.
Proof.
  intros Hne. unfold HuffmanTree_init.
  destruct (merge_loop_spec (length (leaves_of set_iter data))
              (leaves_of set_iter data)) as (root & -> & Hroot & Hp).
  - lia.
  - unfold leaves_of. intros E. apply fmap_nil_inv in E.
    by apply set_iter_nonempty in E.
  - apply leaves_of_huffman.
  - exists root. rewrite leaves_of_symbols in Hp. done.
Qed.

Lemma HuffmanTree_init_empty : HuffmanTree_init set_iter [] = Raise IndexError.
Proof. unfold HuffmanTree_init, leaves_of. by rewrite set_iter_nil. Qed.

(** The code table of the tree built over a non-empty input. *)
Lemma coding_dict_ok data :
  data ≠ [] →
  ∃ tree, HuffmanTree_init set_iter data = Ok tree
    ∧ tree_data tree = data
    ∧ huffman_node (root tree)
    ∧ HuffmanTree_to_dict tree = code_table (root tree) []
    ∧ NoDup (HuffmanTree_to_dict tree).*1
    ∧ (∀ b, b ∈ (HuffmanTree_to_dict tree).*1 ↔ b ∈ data)
    ∧ length (HuffmanTree_to_dict tree) = length (set_iter data).
Proof.
  intros Hne. destruct (HuffmanTree_init_ok data Hne) as (root & -> & Hroot & Hp).
  eexists. split; [done|]. simpl.
  assert (Hnd : NoDup (leaf_symbols root)).
  { rewrite Hp. apply set_iter_NoDup. }
  assert (Ht : HuffmanTree_to_dict {| tree_data := data; root := root |}
               = code_table root []).
  { unfold HuffmanTree_to_dict. simpl.
    by rewrite to_dict_None, to_dict_code_table. }
  rewrite Ht, code_table_fst by done.
  do 4 (split; [done|]). split.
  - intros b. rewrite Hp. apply set_iter_elem.
  - rewrite <- (length_fmap fst), code_table_fst by done.
    by apply Permutation_length.
Qed.
End InitFacts.

(** First-occurrence order is one admissible iteration order. *)
Lemma remove_dups_order : set_order remove_dups.
Proof.
  intros l. split; [apply NoDup_remove_dups|]. intros x. apply elem_of_remove_dups.
Qed.

Lemma two_symbols_nonempty data : two_symbols data → data ≠ [].
Proof. intros (a & _ & Ha & _) ->. by apply elem_of_nil in Ha. Qed.

(** C8. Over an input with at least two distinct byte values the constructor
    returns a tree, and in its code table no code of one symbol is a prefix
    of the code of another. *)
Theorem coding_dict_prefix_free (set_iter : bytes → bytes) (data : bytes) :
  set_order set_iter → two_symbols data →
  ∃ tree, HuffmanTree_init set_iter data = Ok tree
          ∧ prefix_free (HuffmanTree_to_dict tree).
Proof.
  intros Hord Htwo.
  destruct (coding_dict_ok set_iter Hord data (two_symbols_nonempty _ Htwo))
    as (tree & Hinit & _ & Hroot & Ht & _).
  exists tree. split; [done|]. rewrite Ht. by apply code_table_prefix_free.
Qed.

Lemma coding_dict_prefix_free_witness :
  ∃ tree, HuffmanTree_init remove_dups ex_data = Ok tree
          ∧ prefix_free (HuffmanTree_to_dict tree).
Proof.
  apply (coding_dict_prefix_free remove_dups ex_data remove_dups_order).
  exists x41%byte, x42%byte. unfold ex_data.
  split; [left|]. split; [|done]. do 5 right. left.
Defined.

(** ** Inputs the encoder rejects *)

(** C9. On the empty input the constructor raises (at [nodes[0]], with no
    node to take), before a packer exists: the encoder fails and nothing
    is written to standard output. *)
Theorem encode_empty (set_iter : bytes → bytes) :
  set_order set_iter →
  encode set_iter [] = Raise IndexError
  ∧ main_compress set_iter [] = ([], Some IndexError).
Proof.
  intros Hord. unfold main_compress, encode.
  by rewrite HuffmanTree_init_empty.
Qed.

Lemma encode_empty_witness :
  encode remove_dups [] = Raise IndexError
  ∧ main_compress remove_dups [] = ([], Some IndexError).
Proof. apply (encode_empty remove_dups remove_dups_order). Defined.

Lemma single_symbol_set set_iter b data :
  set_order set_iter → data ≠ [] → (∀ x, x ∈ data → x = b) →
  set_iter data = [b].
Proof.
  intros Hord Hne Hall.
  pose proof (set_iter_nonempty set_iter Hord data Hne) as Hne'.
  pose proof (set_iter_NoDup set_iter Hord data) as Hnd.
  assert (Hb : ∀ x, x ∈ set_iter data → x = b).
  { intros x Hx. apply Hall. by apply (set_iter_elem set_iter Hord). }
  destruct (set_iter data) as [|x [|y l]]; [done| |].
  - f_equal. apply Hb. left.
  - exfalso. apply NoDup_cons in Hnd as [Hx _]. apply Hx.
    rewrite (Hb x), (Hb y); [left|right; left|left].
Qed.

Lemma one_symbol_tree set_iter b data :
  set_order set_iter → data ≠ [] → (∀ x, x ∈ data → x = b) →
  HuffmanTree_init set_iter data
  = Ok {| tree_data := data; root := Node_init (count data b) (Some b) |}.
Proof.
  intros Hord Hne Hall. unfold HuffmanTree_init, leaves_of.
  by rewrite (single_symbol_set set_iter b data).
Qed.

Lemma one_symbol_ValueError set_iter b data :
  set_order set_iter → data ≠ [] → (∀ x, x ∈ data → x = b) →
  encode set_iter data = Raise ValueError.
Proof.
  intros Hord Hne Hall. unfold encode.
  rewrite (one_symbol_tree set_iter b data) by done. rewrite bind_Ok.
  unfold compress, HuffmanTree_to_dict. cbn [root Node_init Node_to_dict].
  rewrite pack_ok by done. rewrite bind_Ok. cbn [pack_items].
  rewrite pack_ok; [|done|apply fits_range; [done|apply int_of_byte_range]].
  rewrite bind_Ok. by rewrite pack_ok.
Qed.

(** C2, on the code. For an input made of one repeated byte the tree is a
    single leaf, [to_dict] gives its symbol the empty code, and [compress]
    raises [ValueError] at [int(code, 2)]: there is no blob to decompress. *)
Theorem encode_single_symbol (set_iter : bytes → bytes) (b : byte) (data : bytes) :
  set_order set_iter → data ≠ [] → (∀ x, x ∈ data → x = b) →
  (∃ tree, HuffmanTree_init set_iter data = Ok tree
           ∧ HuffmanTree_to_dict tree = [(b, [])])
  ∧ encode set_iter data = Raise ValueError.
Proof.
  intros Hord Hne Hall. split.
  - eexists. split; [by apply (one_symbol_tree set_iter b data)|done].
  - by apply (one_symbol_ValueError set_iter b data).
Qed.

Lemma encode_single_symbol_witness :
  (∃ tree, HuffmanTree_init remove_dups [x41%byte] = Ok tree
           ∧ HuffmanTree_to_dict tree = [(x41%byte, [])])
  ∧ encode remove_dups [x41%byte] = Raise ValueError.
Proof.
  apply (encode_single_symbol remove_dups x41%byte [x41%byte] remove_dups_order).
  - done.
  - intros x Hx. by apply list_elem_of_singleton in Hx.
Defined.

(** ** The code table of a tree with two or more symbols *)

Lemma NoDup_bytes_length (l : bytes) : NoDup l → (length l ≤ 256)%nat.
Proof.
  intros Hnd.
  assert (Hinj : Inj (=) (=) Byte.to_nat).
  { intros x y E. apply (f_equal Byte.of_nat) in E.
    rewrite !Byte.of_to_nat in E. congruence. }
  assert (Hle : (length (Byte.to_nat <$> l) ≤ length (seq 0 256))%nat).
  { apply submseteq_length, NoDup_submseteq; [by apply NoDup_fmap_2|].
    intros n (b & -> & _)%list_elem_of_fmap. apply elem_of_seq.
    pose proof (Byte.to_nat_bounded b). lia. }
  by rewrite length_fmap, length_seq in Hle.
Qed.

Lemma code_table_nonempty n s c :
  huffman_node n → (2 ≤ length (leaf_symbols n))%nat →
  (s, c) ∈ code_table n [] → c ≠ [].
Proof.
  destruct 1 as [|occ l r Hl Hr]; simpl; [lia|]. intros _.
  rewrite elem_of_app.
  intros [[x ->]%code_table_prefix | [x ->]%code_table_prefix]; done.
Qed.

Section TableFacts.
Variable set_iter : bytes → bytes.
Hypothesis set_iter_order : set_order set_iter.

Lemma two_symbols_set data : two_symbols data → (2 ≤ length (set_iter data))%nat.
Proof.
  intros (a & b & Ha & Hb & Hne).
  apply (set_iter_elem set_iter set_iter_order) in Ha, Hb.
  destruct (set_iter data) as [|x [|y l]]; [|exfalso|simpl; lia].
  - by apply elem_of_nil in Ha.
  - apply list_elem_of_singleton in Ha, Hb. congruence.
Qed.

Lemma coding_dict_valid data :
  two_symbols data →
  ∃ tree, HuffmanTree_init set_iter data = Ok tree
          ∧ tree_data tree = data
          ∧ valid_table (HuffmanTree_to_dict tree) data.
Proof.
  intros Htwo.
  destruct (coding_dict_ok set_iter set_iter_order data
              (two_symbols_nonempty _ Htwo))
    as (tree & Hinit & Hdata & Hroot & Ht & Hnd & Hcov & Hlen).
  exists tree. split; [done|]. split; [done|].
  pose proof (two_symbols_set data Htwo) as H2.
  pose proof (NoDup_bytes_length _ (set_iter_NoDup set_iter set_iter_order data)).
  assert (Hleaves : length (leaf_symbols (root tree)) = length (set_iter data)).
  { rewrite <- Hlen, Ht, <- (length_fmap fst). by rewrite code_table_fst. }
  split; [done|done|unfold len; lia| |].
  - intros s c Hin. rewrite Ht in Hin. split; [|split].
    + eapply code_table_is_bits; [done| |done]. constructor.
    + eapply code_table_nonempty; [done| |done]. lia.
    + apply code_table_length in Hin; [|done]. unfold len. simpl in Hin. lia.
  - rewrite Ht. by apply code_table_prefix_free.
Qed.
End TableFacts.

(** ** compress *)

Lemma pack_field p w x :
  0 <= w → 0 <= bit_length p → 0 <= x < 2 ^ w →
  ∃ p', pack p x w = Ok p'
        ∧ packer_bits p' = packer_bits p ++ bits_msb (Z.to_nat w) x
        ∧ 0 <= bit_length p'.
Proof.
  intros Hw HL Hx.
  assert (Hfit : Z.land x (2 ^ w - 1) = x) by by apply fits_iff_range.
  pose proof (pack_ok p x w Hw Hfit) as Hp.
  eexists. split; [exact Hp|].
  destruct (pack_bits p x w _ Hw HL Hp) as [Hb Hl].
  split; [done|]. lia.
Qed.

Lemma pack_code p c :
  0 <= bit_length p → is_bits c → c ≠ [] →
  ∃ v p', int2 c = Ok v ∧ pack p v (len c) = Ok p'
          ∧ packer_bits p' = packer_bits p ++ c
          ∧ 0 <= bit_length p'.
Proof.
  intros HL Hc Hne. destruct (int2_code c Hc Hne) as (v & Hv & Hfit & Hbits).
  assert (Hw : 0 <= len c) by (unfold len; lia).
  pose proof (pack_ok p v (len c) Hw Hfit) as Hp.
  exists v. eexists. split; [done|]. split; [exact Hp|].
  destruct (pack_bits p v (len c) _ Hw HL Hp) as [Hb Hl].
  unfold len in Hb. rewrite Nat2Z.id, Hbits in Hb. split; [done|]. lia.
Qed.

Lemma pack_items_bits p table :
  0 <= bit_length p → (∀ s c, (s, c) ∈ table → valid_code c) →
  ∃ p', pack_items p table = Ok p'
        ∧ packer_bits p' = packer_bits p ++ (table ≫= entry_bits)
        ∧ 0 <= bit_length p'.
Proof.
  revert p. induction table as [|[s c] table IH]; intros p HL Hvalid.
  - exists p. simpl. by rewrite app_nil_r.
  - destruct (Hvalid s c) as (Hc & Hne & Hlen); [left|].
    cbn [pack_items].
    destruct (pack_field p 8 (int_of_byte s) ltac:(done) HL (int_of_byte_range s))
      as (p1 & -> & Hb1 & HL1). cbn [mbind result_bind].
    destruct (pack_field p1 8 (len c) ltac:(done) HL1) as (p2 & -> & Hb2 & HL2).
    { unfold len in *. split; [lia|done]. }
    change (Z.to_nat 8) with 8%nat in *.
    cbn [mbind result_bind].
    destruct (pack_code p2 c HL2 Hc Hne) as (v & p3 & Hv & Hp3 & Hb3 & HL3).
    rewrite Hv. cbn [mbind result_bind]. rewrite Hp3. cbn [mbind result_bind].
    destruct (IH p3 HL3) as (p4 & -> & Hb4 & HL4).
    { intros s' c' Hin. apply (Hvalid s' c'). by right. }
    exists p4. split; [done|]. split; [|done].
    rewrite Hb4, Hb3, Hb2, Hb1, bind_cons. unfold entry_bits at 2. simpl.
    by rewrite <- !app_assoc.
Qed.

Lemma code_of_in table s c :
  NoDup table.*1 → (s, c) ∈ table → code_of table s = c.
Proof. intros Hnd Hin. unfold code_of. by rewrite (dict_get_in table s c). Qed.

Lemma code_of_valid table data b :
  valid_table table data → b ∈ data →
  (b, code_of table b) ∈ table ∧ valid_code (code_of table b).
Proof.
  intros Hvt Hb. apply (vt_covers _ _ Hvt) in Hb.
  apply list_elem_of_fmap in Hb as ([s c] & -> & Hin). simpl.
  rewrite (code_of_in table s c); [|apply Hvt|done].
  split; [done|]. by apply (vt_codes _ _ Hvt s).
Qed.

Lemma pack_data_bits p table data0 data :
  0 <= bit_length p → valid_table table data0 → (∀ b, b ∈ data → b ∈ data0) →
  ∃ p', pack_data p table data = Ok p'
        ∧ packer_bits p' = packer_bits p ++ (data ≫= code_of table)
        ∧ 0 <= bit_length p'.
Proof.
  intros HL Hvt. revert p HL. induction data as [|b data IH]; intros p HL Hsub.
  - exists p. simpl. by rewrite app_nil_r.
  - destruct (code_of_valid table data0 b Hvt) as (Hin & Hc & Hne & Hlen).
    { apply Hsub. left. }
    cbn [pack_data].
    rewrite (dict_get_in table b (code_of table b)); [|apply Hvt|done].
    cbn [mbind result_bind].
    destruct (pack_code p _ HL Hc Hne) as (v & p1 & Hv & Hp1 & Hb1 & HL1).
    rewrite Hv. cbn [mbind result_bind]. rewrite Hp1. cbn [mbind result_bind].
    destruct (IH p1 HL1) as (p2 & -> & Hb2 & HL2).
    { intros b' Hb'. apply Hsub. by right. }
    exists p2. split; [done|]. split; [|done].
    by rewrite Hb2, Hb1, bind_cons, <- app_assoc.
Qed.

(** [compress] up to the code table: the count field and the entries. *)
Lemma compress_header table data :
  valid_table table data →
  ∃ p1 p2, pack Packer_init (len table - 1) 8 = Ok p1
           ∧ pack_items p1 table = Ok p2
           ∧ packer_bits p2 = bits_msb 8 (len table - 1) ++ (table ≫= entry_bits)
           ∧ 0 <= bit_length p2.
Proof.
  intros Hvt. pose proof (vt_size _ _ Hvt).
  destruct (pack_field Packer_init 8 (len table - 1)) as (p1 & Hp1 & Hb1 & HL1);
    [done|done|simpl; lia|].
  change (Z.to_nat 8) with 8%nat in *.
  destruct (pack_items_bits p1 table HL1 (vt_codes _ _ Hvt))
    as (p2 & Hp2 & Hb2 & HL2).
  exists p1, p2. rewrite Hb2, Hb1. done.
Qed.

Lemma compress_bits tree :
  valid_table (HuffmanTree_to_dict tree) (tree_data tree) →
  len (tree_data tree) < 2 ^ 32 →
  ∃ blob pad, compress tree = Ok blob
    ∧ (pad < 8)%nat
    ∧ bit_string_of blob
      = container (HuffmanTree_to_dict tree) (tree_data tree) pad.
Proof.
  intros Hvt Hlen. unfold compress.
  destruct (compress_header _ _ Hvt) as (p1 & p2 & -> & Hp2 & Hb2 & HL2).
  cbn [mbind result_bind]. rewrite Hp2. cbn [mbind result_bind].
  destruct (pack_field p2 32 (len (tree_data tree)) ltac:(done) HL2)
    as (p3 & -> & Hb3 & HL3).
  { unfold len in *. lia. }
  change (Z.to_nat 32) with 32%nat in *.
  cbn [mbind result_bind].
  destruct (pack_data_bits p3 _ _ (tree_data tree) HL3 Hvt) as (p4 & -> & Hb4 & HL4);
    [done|].
  cbn [mbind result_bind].
  destruct (flush_bits p4 HL4) as (blob & -> & _ & Hblob).
  cbn [mbind result_bind].
  exists blob, (Z.to_nat (pad_bits_of (bit_length p4))).
  split; [done|]. split; [pose proof (pad_bits_of_range (bit_length p4)); lia|].
  rewrite Hblob, Hb4, Hb3, Hb2. unfold container. by rewrite <- !app_assoc.
Qed.

Lemma compress_too_long tree :
  valid_table (HuffmanTree_to_dict tree) (tree_data tree) →
  2 ^ 32 <= len (tree_data tree) →
  compress tree
  = Raise (AssertionError (does_not_fit (len (tree_data tree)) 32)).
Proof.
  intros Hvt Hlen. unfold compress.
  destruct (compress_header _ _ Hvt) as (p1 & p2 & -> & Hp2 & Hb2 & HL2).
  cbn [mbind result_bind]. rewrite Hp2. cbn [mbind result_bind].
  rewrite pack_fail; [done..|].
  intros E. apply fits_iff_range in E; lia.
Qed.

(** ** decompress on a well-formed container *)

Lemma unpack_cursor d pre s post w :
  s ≠ [] → w = len s →
  unpack (cursor d pre (s ++ post)) w = Ok (s, cursor d (pre ++ s) post).
Proof.
  intros Hs ->. unfold cursor. rewrite unpack_at by done.
  by rewrite <- app_assoc.
Qed.

Lemma bits_msb_nonempty w v : (0 < w)%nat → bits_msb w v ≠ [].
Proof. destruct w; [lia|done]. Qed.

Lemma read_codes_table d table m pre post :
  (∀ s c, (s, c) ∈ table → valid_code c) →
  read_codes (length table) (cursor d pre ((table ≫= entry_bits) ++ post)) m
  = Ok (table_map table m, cursor d (pre ++ (table ≫= entry_bits)) post).
Proof.
  revert m pre. induction table as [|[s c] table IH]; intros m pre Hvalid.
  - simpl. by rewrite app_nil_r.
  - destruct (Hvalid s c) as (Hc & Hne & Hlen); [left|].
    rewrite bind_cons. unfold entry_bits at 1 3. cbn [fst snd length read_codes].
    rewrite <- !app_assoc.
    rewrite unpack_cursor; [|by apply bits_msb_nonempty; lia
                            |by unfold len; rewrite bits_msb_length].
    cbn [mbind result_bind].
    rewrite int2_field; [|lia|apply int_of_byte_range]. cbn [mbind result_bind].
    rewrite unpack_cursor; [|by apply bits_msb_nonempty; lia
                            |by unfold len; rewrite bits_msb_length].
    cbn [mbind result_bind].
    rewrite int2_field; [|lia|unfold len in *; simpl; lia].
    cbn [mbind result_bind].
    rewrite unpack_cursor by done. cbn [mbind result_bind].
    rewrite bytes1_int_of_byte. cbn [mbind result_bind].
    rewrite IH by (intros s' c' Hin; apply (Hvalid s' c'); by right).
    by rewrite <- !app_assoc.
Qed.

Lemma table_map_notin table m k :
  k ∉ table.*2 → table_map table m !! k = m !! k.
Proof.
  revert m. induction table as [|[s c] table IH]; intros m; simpl; [done|].
  rewrite not_elem_of_cons. intros [Hne Hnot].
  unfold table_map in *. simpl. rewrite IH by done. by rewrite lookup_insert_ne.
Qed.

Lemma table_map_in table m s c :
  NoDup table.*2 → (s, c) ∈ table → table_map table m !! c = Some [s].
Proof.
  revert m. induction table as [|[s' c'] table IH]; intros m Hnd Hin; simpl in *.
  - by apply elem_of_nil in Hin.
  - apply NoDup_cons in Hnd as [Hc' Hnd].
    apply elem_of_cons in Hin as [[= -> ->] | Hin].
    + change (table_map table (<[c' := [s']]> m) !! c' = Some [s']).
      rewrite table_map_notin by done. apply lookup_insert_eq.
    + by apply IH.
Qed.

Lemma table_map_inv table k v :
  table_map table ∅ !! k = Some v → ∃ s, (s, k) ∈ table ∧ v = [s].
Proof.
  destruct (decide (k ∈ table.*2)) as [Hin | Hnot].
  - revert v. unfold table_map.
    induction table as [|e table IH] using rev_ind; [by apply elem_of_nil in Hin|].
    intros v. rewrite foldl_app. simpl.
    destruct (decide (e.2 = k)) as [<- | Hne].
    + rewrite lookup_insert_eq. intros [= <-]. exists e.1.
      split; [|done]. rewrite elem_of_app. right. destruct e. left.
    + rewrite lookup_insert_ne by done. intros Hv.
      rewrite fmap_app, elem_of_app in Hin. destruct Hin as [Hin | Hin].
      * destruct (IH Hin v Hv) as (s & Hs & ->). exists s.
        split; [|done]. rewrite elem_of_app. by left.
      * simpl in Hin. apply list_elem_of_singleton in Hin. congruence.
  - rewrite table_map_notin by done. by rewrite lookup_empty.
Qed.

Section Decoding.
Variables (table : list (byte * str)) (data0 : bytes).
Hypothesis table_valid : valid_table table data0.

Lemma table_same_key s c1 c2 :
  (s, c1) ∈ table → (s, c2) ∈ table → c1 = c2.
Proof.
  intros H1 H2.
  apply (dict_get_in _ _ _ (vt_keys _ _ table_valid)) in H1, H2. congruence.
Qed.

Lemma table_codes_NoDup : NoDup table.*2.
Proof.
  apply NoDup_fmap_2_strong.
  - intros [s1 c1] [s2 c2] H1 H2. simpl. intros <-.
    destruct (decide (s1 = s2)) as [-> | Hne]; [done|].
    by destruct (vt_prefix_free _ _ table_valid s1 c1 s2 c1 H1 H2 Hne).
  - eapply NoDup_fmap_1, (vt_keys _ _ table_valid).
Qed.

(** A proper, non-empty prefix of a code is not a key of the lookup
    table. *)
Lemma proper_prefix_unmatched b c1 c2 :
  (b, c1 ++ c2) ∈ table → c2 ≠ [] → table_map table ∅ !! c1 = None.
Proof.
  intros Hin Hc2. destruct (table_map table ∅ !! c1) as [v|] eqn:E; [|done].
  apply table_map_inv in E as (s & Hs & _). exfalso.
  destruct (decide (s = b)) as [-> | Hne].
  - pose proof (table_same_key _ _ _ Hs Hin) as E.
    rewrite <- (app_nil_r c1) in E at 1. by apply app_inv_head in E.
  - destruct (vt_prefix_free _ _ table_valid s c1 b (c1 ++ c2) Hs Hin Hne) as [Hp _].
    apply Hp. by apply prefix_app_r.
Qed.

(** Reading the rest [c2] of the code of [b], bit by bit, with the bits
    [c1] read before it in the scratch string. *)
Lemma read_code d b post n dec fuel c2 : ∀ c1 pre,
  (b, c1 ++ c2) ∈ table → c2 ≠ [] → n ≠ 0 →
  read_symbols (length c2 + fuel) (table_map table ∅)
    {| unpacker := cursor d pre (c2 ++ post); symbols_to_read := n;
       decompressed := dec; bit_string := c1 |}
  = read_symbols fuel (table_map table ∅)
      {| unpacker := cursor d (pre ++ c2) post; symbols_to_read := n - 1;
         decompressed := dec ++ [b]; bit_string := [] |}.
Proof.
  induction c2 as [|x c2 IH]; intros c1 pre Hin Hne Hn; [done|].
  cbn [length Nat.add read_symbols symbols_to_read].
  destruct (Z.eqb_spec n 0); [done|].
  unfold read_bit. cbn [unpacker bit_string symbols_to_read decompressed].
  pose proof (unpack_cursor d pre [x] (c2 ++ post) 1) as Hu.
  change ([x] ++ c2 ++ post) with ((x :: c2) ++ post) in Hu.
  rewrite Hu by done. clear Hu. cbn [mbind result_bind].
  destruct c2 as [|y c2].
  - rewrite (table_map_in table ∅ b (c1 ++ [x])); [done|apply table_codes_NoDup|done].
  - rewrite (proper_prefix_unmatched b (c1 ++ [x]) (y :: c2));
      [|by rewrite <- app_assoc|done].
    change (S (length c2 + fuel)) with (length (y :: c2) + fuel)%nat.
    cbn [mbind result_bind].
    rewrite (IH (c1 ++ [x]) (pre ++ [x])); [|by rewrite <- app_assoc|done|done].
    by rewrite <- app_assoc.
Qed.

Lemma read_symbols_data d post data : ∀ pre dec fuel,
  (∀ b, b ∈ data → b ∈ data0) →
  (length (data ≫= code_of table) ≤ fuel)%nat →
  read_symbols fuel (table_map table ∅)
    {| unpacker := cursor d pre ((data ≫= code_of table) ++ post);
       symbols_to_read := len data; decompressed := dec; bit_string := [] |}
  = Ok (dec ++ data).
Proof.
  induction data as [|b data IH]; intros pre dec fuel Hsub Hfuel.
  - destruct fuel; simpl; by rewrite app_nil_r.
  - destruct (code_of_valid table data0 b table_valid) as (Hin & Hc & Hne & Hlen).
    { apply Hsub. left. }
    rewrite bind_cons, length_app in Hfuel. rewrite bind_cons, <- app_assoc.
    replace fuel with (length (code_of table b)
                       + (fuel - length (code_of table b)))%nat by lia.
    rewrite (read_code d b _ _ _ _ (code_of table b) [] pre);
      [|done|done|unfold len; simpl; lia].
    replace (len (b :: data) - 1) with (len data) by (unfold len; simpl; lia).
    rewrite IH; [by rewrite <- app_assoc| |lia].
    intros b' Hb'. apply Hsub. by right.
Qed.
End Decoding.

(** Any blob laid out as a container decodes to the data it holds. *)
Lemma decompress_container table data pad blob :
  valid_table table data → len data < 2 ^ 32 →
  bit_string_of blob = container table data pad →
  decompress blob = Ok data.
Proof.
  intros Hvt Hlen Hblob. pose proof (vt_size _ _ Hvt) as Hsize.
  unfold decompress, read_header.
  change (Unpacker_init blob) with
    {| data := blob; data_bit_string := bit_string_of blob; bit_index := 0 |}.
  rewrite Hblob. unfold container.
  change {| data := blob; data_bit_string := ?s ++ ?t; bit_index := 0 |}
    with (cursor blob [] (s ++ t)).
  rewrite unpack_cursor; [|by apply bits_msb_nonempty; lia
                          |by unfold len; rewrite bits_msb_length].
  rewrite bind_Ok. cbv beta iota.
  rewrite int2_field; [|lia|simpl; lia]. rewrite bind_Ok. cbv beta iota.
  replace (Z.to_nat (len table - 1 + 1)) with (length table) by (unfold len; lia).
  rewrite read_codes_table by apply Hvt. rewrite bind_Ok. cbv beta iota.
  rewrite unpack_cursor; [|by apply bits_msb_nonempty; lia
                          |by unfold len; rewrite bits_msb_length].
  rewrite bind_Ok. cbv beta iota.
  rewrite int2_field; [|lia|unfold len in *; simpl; lia].
  rewrite !bind_Ok. cbv beta iota. cbn [unpacker].
  apply (read_symbols_data table data Hvt); [by intros b|].
  unfold bits_left, cursor, len. cbn [data_bit_string bit_index].
  rewrite !length_app. lia.
Qed.

(** ** The encoder's output and the round trip *)

Section Encode.
Variable set_iter : bytes → bytes.
Hypothesis set_iter_order : set_order set_iter.

Lemma encode_bits data :
  two_symbols data → len data < 2 ^ 32 →
  ∃ tree blob pad,
    HuffmanTree_init set_iter data = Ok tree
    ∧ encode set_iter data = Ok blob
    ∧ (pad < 8)%nat
    ∧ valid_table (HuffmanTree_to_dict tree) data
    ∧ bit_string_of blob = container (HuffmanTree_to_dict tree) data pad.
Proof.
  intros Htwo Hlen.
  destruct (coding_dict_valid set_iter set_iter_order data Htwo)
    as (tree & Hinit & Hdata & Hvt).
  destruct (compress_bits tree) as (blob & pad & Hblob & Hpad & Hbits);
    [by rewrite Hdata..|].
  exists tree, blob, pad. unfold encode. rewrite Hinit, bind_Ok.
  rewrite Hdata in Hbits. done.
Qed.

Lemma encode_too_long data :
  two_symbols data → 2 ^ 32 <= len data →
  encode set_iter data = Raise (AssertionError (does_not_fit (len data) 32)).
Proof.
  intros Htwo Hlen.
  destruct (coding_dict_valid set_iter set_iter_order data Htwo)
    as (tree & Hinit & Hdata & Hvt).
  unfold encode. rewrite Hinit, bind_Ok.
  rewrite compress_too_long; by rewrite Hdata.
Qed.
End Encode.

Lemma long_data_two_symbols : two_symbols long_data.
Proof.
  exists x41%byte, x42%byte. unfold long_data.
  split; [|split; [|done]]; apply elem_of_app.
  - left. apply elem_of_replicate. split; [done|lia].
  - right. left.
Qed.

Lemma long_data_len : len long_data = 2 ^ 32 + 1.
Proof.
  unfold len, long_data. rewrite length_app, length_replicate.
  change (length [x42%byte]) with 1%nat. lia.
Qed.

(** C5, as the code has it. For an input with at least two distinct byte
    values and fewer than 2^32 bytes, the blob is, bit for bit: the number
    of table entries minus one on 8 bits; for each entry of the code table
    (one per distinct byte of the input) its symbol on 8 bits, its code
    length on 8 bits and its code; the input length on 32 bits; the codes
    of the input bytes in input order; and fewer than 8 zero bits, which
    bring the total to a whole number of bytes. *)
Theorem encode_container (set_iter : bytes → bytes) (data : bytes) :
  set_order set_iter → two_symbols data → len data < 2 ^ 32 →
  ∃ tree blob pad,
    HuffmanTree_init set_iter data = Ok tree
    ∧ encode set_iter data = Ok blob
    ∧ valid_table (HuffmanTree_to_dict tree) data
    ∧ bit_string_of blob = container (HuffmanTree_to_dict tree) data pad
    ∧ (pad < 8)%nat
    ∧ len (container (HuffmanTree_to_dict tree) data pad) = 8 * len blob.
Proof.
  intros Hord Htwo Hlen.
  destruct (encode_bits set_iter Hord data Htwo Hlen)
    as (tree & blob & pad & Hinit & Henc & Hpad & Hvt & Hbits).
  exists tree, blob, pad. do 5 (split; [done|]).
  rewrite <- Hbits. apply bit_string_of_length.
Qed.

Lemma encode_container_witness :
  ∃ tree blob pad,
    HuffmanTree_init remove_dups ex_data = Ok tree
    ∧ encode remove_dups ex_data = Ok blob
    ∧ valid_table (HuffmanTree_to_dict tree) ex_data
    ∧ bit_string_of blob = container (HuffmanTree_to_dict tree) ex_data pad
    ∧ (pad < 8)%nat
    ∧ len (container (HuffmanTree_to_dict tree) ex_data pad) = 8 * len blob.
Proof.
  apply (encode_container remove_dups ex_data remove_dups_order).
  - exists x41%byte, x42%byte. unfold ex_data.
    split; [left|]. split; [|done]. do 5 right. left.
  - vm_compute. reflexivity.
Defined.

(** C5, as stated, fails: for the one-byte input A, and for 2^32 bytes A
    followed by a byte B, the encoder raises and there is no blob. *)
Lemma encode_no_blob :
  encode remove_dups [x41%byte] = Raise ValueError
  ∧ encode remove_dups long_data
    = Raise (AssertionError (does_not_fit (2 ^ 32 + 1) 32)).
Proof.
  split.
  - apply (one_symbol_ValueError remove_dups x41%byte); [apply remove_dups_order|done|].
    intros x Hx. by apply list_elem_of_singleton in Hx.
  - rewrite <- long_data_len.
    apply (encode_too_long remove_dups remove_dups_order);
      [apply long_data_two_symbols|rewrite long_data_len; lia].
Qed.

(** C1, as the code has it. For an input with at least two distinct byte
    values and fewer than 2^32 bytes, compressing succeeds and decompressing
    the blob gives the input back. *)
Theorem roundtrip_ok (set_iter : bytes → bytes) (data : bytes) :
  set_order set_iter → two_symbols data → len data < 2 ^ 32 →
  roundtrip set_iter data = Ok data.
Proof.
  intros Hord Htwo Hlen.
  destruct (encode_bits set_iter Hord data Htwo Hlen)
    as (tree & blob & pad & _ & Henc & _ & Hvt & Hbits).
  unfold roundtrip. rewrite Henc, bind_Ok.
  by apply (decompress_container (HuffmanTree_to_dict tree) data pad).
Qed.

Lemma roundtrip_ok_witness : roundtrip remove_dups ex_data = Ok ex_data.
Proof.
  apply (roundtrip_ok remove_dups ex_data remove_dups_order).
  - exists x41%byte, x42%byte. unfold ex_data.
    split; [left|]. split; [|done]. do 5 right. left.
  - by vm_compute.
Defined.

(** C1, as stated, fails: the one-byte input A does not survive the round
    trip, nor do 2^32 bytes A followed by a byte B. *)
Lemma roundtrip_fails :
  roundtrip remove_dups [x41%byte] = Raise ValueError
  ∧ roundtrip remove_dups long_data
    = Raise (AssertionError (does_not_fit (2 ^ 32 + 1) 32)).
Proof.
  unfold roundtrip. split.
  - rewrite (one_symbol_ValueError remove_dups x41%byte);
      [done|apply remove_dups_order|done|].
    intros x Hx. by apply list_elem_of_singleton in Hx.
  - rewrite (encode_too_long remove_dups remove_dups_order);
      [by rewrite long_data_len|apply long_data_two_symbols
      |rewrite long_data_len; lia].
Qed.

(** ** The length limit of the count field *)

Lemma pack_len_ok (p : Packer) (data : bytes) :
  len data < 2 ^ 32 → ∃ p', pack p (len data) 32 = Ok p'.
Proof.
  intros Hlen. eexists. apply pack_ok; [done|].
  apply fits_iff_range; [done|]. unfold len in *. lia.
Qed.

Lemma long_run_len : len long_run = 2 ^ 32.
Proof. unfold len, long_run. rewrite length_replicate. lia. Qed.

(** C10, on the code. 2^32 bytes A are too many for the 32-bit count field,
    yet [compress] does not reach [pack(len(data), 32)]: with one distinct
    symbol it has already raised [ValueError] at [int(code, 2)]. *)
Theorem long_run_ValueError (set_iter : bytes → bytes) :
  set_order set_iter →
  2 ^ 32 <= len long_run
  ∧ encode set_iter long_run = Raise ValueError
  ∧ encode set_iter long_run
    ≠ Raise (AssertionError (does_not_fit (len long_run) 32)).
Proof.
  intros Hord.
  assert (E : encode set_iter long_run = Raise ValueError).
  { apply (one_symbol_ValueError set_iter x41%byte); [done| |].
    - intros H. apply (f_equal len) in H. rewrite long_run_len in H. done.
    - unfold long_run. by intros x [-> _]%elem_of_replicate. }
  split; [rewrite long_run_len; lia|]. split; [done|]. by rewrite E.
Qed.

Lemma long_run_ValueError_witness :
  2 ^ 32 <= len long_run
  ∧ encode remove_dups long_run = Raise ValueError
  ∧ encode remove_dups long_run
    ≠ Raise (AssertionError (does_not_fit (len long_run) 32)).
Proof. apply (long_run_ValueError remove_dups remove_dups_order). Defined.

(** ** decompress on an arbitrary blob *)

Lemma bind_Ok_inv {A B} (r : result A) (f : A → result B) b :
  (r ≫= f) = Ok b → ∃ a, r = Ok a ∧ f a = Ok b.
Proof. destruct r as [a| |]; [by exists a|done..]. Qed.

Lemma int2_digits_range s acc v :
  int2_digits s acc = Ok v →
  acc * 2 ^ len s <= v < (acc + 1) * 2 ^ len s.
Proof.
  revert acc. induction s as [|c s IH]; intros acc; simpl.
  - intros [= <-]. change (len []) with 0. lia.
  - assert (E : 2 ^ len (c :: s) = 2 * 2 ^ len s).
    { unfold len. simpl length. rewrite Nat2Z.inj_succ. apply Z.pow_succ_r. lia. }
    rewrite E. pose proof (Z.pow_pos_nonneg 2 (len s)).
    destruct (decide (c = "0"%char)); [intros Hv%IH; unfold len in *; nia|].
    destruct (decide (c = "1"%char)); [intros Hv%IH; unfold len in *; nia|done].
Qed.

Lemma int2_range s v : int2 s = Ok v → 0 <= v < 2 ^ len s.
Proof.
  unfold int2. destruct s as [|c s]; [done|].
  intros Hv%int2_digits_range. lia.
Qed.

Lemma unpack_inv u w s u' :
  unpack u w = Ok (s, u') →
  is_empty u = false
  ∧ s = slice (data_bit_string u) (bit_index u) (bit_index u + w)
  ∧ data_bit_string u' = data_bit_string u
  ∧ bit_index u' = bit_index u + w.
Proof.
  unfold unpack. destruct (is_empty u); [done|]. by intros [= <- <-].
Qed.

Lemma unpack_short u w s u' :
  0 <= bit_index u → 0 <= w → unpack u w = Ok (s, u') → len s <= w.
Proof.
  intros Hi Hw (_ & -> & _)%unpack_inv. rewrite slice_from by done.
  unfold len. rewrite length_take. lia.
Qed.

Lemma read_codes_short n : ∀ u m m' u',
  0 <= bit_index u → keys_short m →
  read_codes n u m = Ok (m', u') → keys_short m'.
Proof.
  induction n as [|n IH]; intros u m m' u' Hi Hm; simpl.
  - by intros [= <- <-].
  - intros ([s1 u1] & H1 & H)%bind_Ok_inv.
    apply bind_Ok_inv in H as (symbol & Hsym & H).
    apply bind_Ok_inv in H as ([s2 u2] & H2 & H).
    apply bind_Ok_inv in H as (code_length & Hcl & H).
    apply bind_Ok_inv in H as ([code u3] & H3 & H).
    apply bind_Ok_inv in H as (b & Hb & H).
    pose proof (unpack_inv _ _ _ _ H1) as (_ & _ & _ & Hi1).
    pose proof (unpack_inv _ _ _ _ H2) as (_ & _ & _ & Hi2).
    pose proof (unpack_inv _ _ _ _ H3) as (_ & _ & _ & Hi3).
    assert (Hs2 : len s2 <= 8) by (apply (unpack_short u1 8 s2 u2); [lia|lia|done]).
    pose proof (int2_range _ _ Hcl) as Hrange.
    assert (Hcl255 : code_length <= 255).
    { assert (2 ^ len s2 <= 2 ^ 8) by (apply Z.pow_le_mono_r; lia). lia. }
    assert (Hs3 : len code <= code_length)
      by (apply (unpack_short u2 code_length code u3); [lia|lia|done]).
    apply (IH u3 (<[code := b]> m) m' u') in H; [done|lia|].
    intros k v. destruct (decide (code = k)) as [<- | Hne].
    + intros _. lia.
    + rewrite lookup_insert_ne by done. apply Hm.
Qed.

Lemma read_header_short data coding_dict st :
  read_header data = Ok (coding_dict, st) → keys_short coding_dict.
Proof.
  unfold read_header. intros ([s1 u1] & H1 & H)%bind_Ok_inv.
  apply bind_Ok_inv in H as (n & Hn & H).
  apply bind_Ok_inv in H as ([m u2] & Hcodes & H).
  apply bind_Ok_inv in H as ([s2 u3] & H2 & H).
  apply bind_Ok_inv in H as (n2 & Hn2 & H).
  injection H as <- <-.
  pose proof (unpack_inv _ _ _ _ H1) as (_ & _ & _ & Hi1). simpl in Hi1.
  eapply read_codes_short; [| |exact Hcodes]; [lia|].
  intros k v. by rewrite lookup_empty.
Qed.

Section Payload.
Variable coding_dict : gmap str bytes.

Lemma read_bit_empty st :
  is_empty (unpacker st) = true →
  read_bit coding_dict st = Raise (AssertionError no_data_left).
Proof. intros He. unfold read_bit, unpack. by rewrite He. Qed.

(** Every iteration that does not raise has read a bit. *)
Lemma read_bit_inv st st' :
  read_bit coding_dict st = Ok st' →
  (bits_left (unpacker st') < bits_left (unpacker st))%nat.
Proof.
  unfold read_bit. intros ([s u] & Hu & H)%bind_Ok_inv.
  apply unpack_inv in Hu as (He & -> & Hs & Hi).
  assert (Hleft : (bits_left u < bits_left (unpacker st))%nat).
  { unfold bits_left, is_empty in *. rewrite Hs, Hi.
    destruct (Z.leb_spec (len (data_bit_string (unpacker st)))
                (bit_index (unpacker st))); [done|lia]. }
  by destruct (coding_dict !! _); injection H as <-.
Qed.

(** With a scratch string longer than every code, no bit read can complete a
    symbol: the loop runs until the stream is exhausted and fails there. *)
Lemma read_symbols_stuck fuel : ∀ st,
  keys_short coding_dict →
  symbols_to_read st ≠ 0 → 255 < len (bit_string st) →
  (bits_left (unpacker st) ≤ fuel)%nat →
  read_symbols fuel coding_dict st = Raise (AssertionError no_data_left).
Proof.
  induction fuel as [|fuel IH]; intros st Hshort Hn Hlong Hfuel.
  - unfold bits_left in Hfuel. lia.
  - cbn [read_symbols]. destruct (Z.eqb_spec (symbols_to_read st) 0); [done|].
    unfold read_bit.
    destruct (unpack (unpacker st) 1) as [[s u]| |] eqn:Hu; cycle 1.
    + unfold unpack in Hu. by destruct (is_empty (unpacker st)); simplify_eq.
    + unfold unpack in Hu. by destruct (is_empty (unpacker st)).
    + rewrite bind_Ok. cbv beta iota.
      apply unpack_inv in Hu as (He & -> & Hs & Hi).
      destruct (coding_dict !! _) as [v|] eqn:E.
      { apply Hshort in E. unfold len in *. rewrite length_app in E. lia. }
      rewrite bind_Ok. apply IH; [done|done| |]; cbn.
      * unfold len in *. rewrite length_app. lia.
      * unfold bits_left, is_empty in *. rewrite Hs, Hi.
        destruct (Z.leb_spec (len (data_bit_string (unpacker st)))
                    (bit_index (unpacker st))); [done|lia].
Qed.

Lemma read_symbols_exhausted fuel st :
  symbols_to_read st ≠ 0 → is_empty (unpacker st) = true →
  (bits_left (unpacker st) ≤ fuel)%nat →
  read_symbols fuel coding_dict st = Raise (AssertionError no_data_left).
Proof.
  intros Hn He Hfuel. destruct fuel as [|fuel]; [unfold bits_left in Hfuel; lia|].
  cbn [read_symbols]. destruct (Z.eqb_spec (symbols_to_read st) 0); [done|].
  by rewrite read_bit_empty.
Qed.

(** The loop's answer from [st0] is its answer from any state it reaches. *)
Lemma read_symbols_reaches st0 st :
  rtc (payload_step coding_dict) st0 st →
  ∀ fuel, (bits_left (unpacker st0) ≤ fuel)%nat →
  ∃ fuel', (bits_left (unpacker st) ≤ fuel')%nat
           ∧ read_symbols fuel coding_dict st0
             = read_symbols fuel' coding_dict st.
Proof.
  induction 1 as [st|st0 st1 st [Hn Hstep] _ IH]; intros fuel Hfuel.
  - by exists fuel.
  - destruct fuel as [|fuel]; [unfold bits_left in Hfuel; lia|].
    pose proof (read_bit_inv _ _ Hstep) as Hleft.
    destruct (IH fuel) as (fuel' & Hfuel' & E); [lia|].
    exists fuel'. split; [done|]. rewrite <- E.
    cbn [read_symbols]. destruct (Z.eqb_spec (symbols_to_read st0) 0); [done|].
    by rewrite Hstep, bind_Ok.
Qed.
End Payload.

(** C4. Whatever the blob: if the header can be read and the payload loop
    comes to a point where symbols are still owed and either no unread bit
    is left or the scratch string has grown past 255 bits, then [decompress]
    fails, with the no-data-left assertion of [unpack]. *)
Theorem decompress_malformed (data : bytes) (coding_dict : gmap str bytes)
    (st0 st : decoding) :
  read_header data = Ok (coding_dict, st0) →
  rtc (payload_step coding_dict) st0 st →
  symbols_to_read st ≠ 0 →
  is_empty (unpacker st) = true ∨ 255 < len (bit_string st) →
  decompress data = Raise (AssertionError no_data_left).
Proof.
  intros Hhead Hreach Hn Hbad. unfold decompress. rewrite Hhead, bind_Ok.
  destruct (read_symbols_reaches coding_dict st0 st Hreach
              (bits_left (unpacker st0))) as (fuel' & Hfuel' & ->); [done|].
  destruct Hbad as [He | Hlong].
  - by apply read_symbols_exhausted.
  - apply read_symbols_stuck; [|done..]. by eapply read_header_short.
Qed.

Lemma decompress_malformed_witness :
  decompress truncated_blob = Raise (AssertionError no_data_left).
Proof.
  apply (decompress_malformed truncated_blob
           (<[[] := [x41%byte]]> ∅)
           {| unpacker := {| data := truncated_blob;
                             data_bit_string := bit_string_of truncated_blob;
                             bit_index := 56 |};
              symbols_to_read := 1; decompressed := []; bit_string := [] |}
           {| unpacker := {| data := truncated_blob;
                             data_bit_string := bit_string_of truncated_blob;
                             bit_index := 56 |};
              symbols_to_read := 1; decompressed := []; bit_string := [] |}).
  - vm_compute. reflexivity.
  - apply rtc_refl.
  - simpl. lia.
  - left. vm_compute. reflexivity.
Defined.

(** ** The fuel is enough *)

Lemma bind_fuel {A B} (r : result A) (f : A → result B) :
  r ≠ OutOfFuel → (∀ a, r = Ok a → f a ≠ OutOfFuel) → (r ≫= f) ≠ OutOfFuel.
Proof. destruct r as [a| |]; [by intros _ H; apply (H a)|done..]. Qed.

Lemma pack_fuel p v w : pack p v w ≠ OutOfFuel.
Proof. unfold pack. by repeat case_match. Qed.

Lemma int2_fuel s : int2 s ≠ OutOfFuel.
Proof.
  assert (H : ∀ acc, int2_digits s acc ≠ OutOfFuel).
  { induction s as [|c s IH]; intros acc; simpl; [done|]. by repeat case_decide. }
  unfold int2. by destruct s.
Qed.

Lemma bytes1_fuel v : bytes1 v ≠ OutOfFuel.
Proof. unfold bytes1. by repeat case_match. Qed.

Lemma unpack_fuel u w : unpack u w ≠ OutOfFuel.
Proof. unfold unpack. by case_match. Qed.

Lemma dict_get_fuel {K V} `{EqDecision K} (d : list (K * V)) k :
  dict_get d k ≠ OutOfFuel.
Proof. induction d as [|[k' v'] d IH]; simpl; [done|]. by case_decide. Qed.

Lemma flush_fuel p : flush p ≠ OutOfFuel.
Proof.
  unfold flush.
  destruct (flush_loop_spec
              (Z.to_nat ((bit_length p + pad_bits_of (bit_length p)) / 8))
              (Z.shiftl (buffer p) (pad_bits_of (bit_length p))) [])
    as (out & -> & _). done.
Qed.

Lemma pack_items_fuel p items : pack_items p items ≠ OutOfFuel.
Proof.
  revert p. induction items as [|[s c] items IH]; intros p; simpl; [done|].
  repeat (apply bind_fuel; [auto using pack_fuel, int2_fuel|intros ? _]).
  apply IH.
Qed.

Lemma pack_data_fuel p d data : pack_data p d data ≠ OutOfFuel.
Proof.
  revert p. induction data as [|b data IH]; intros p; simpl; [done|].
  repeat (apply bind_fuel;
          [auto using pack_fuel, int2_fuel, dict_get_fuel|intros ? _]).
  apply IH.
Qed.

Lemma compress_fuel tree : compress tree ≠ OutOfFuel.
Proof.
  unfold compress.
  repeat (apply bind_fuel;
          [auto using pack_fuel, pack_items_fuel, pack_data_fuel, flush_fuel
          |intros ? _]).
  by case_match.
Qed.

Lemma encode_fuel set_iter data :
  set_order set_iter → encode set_iter data ≠ OutOfFuel.
Proof.
  intros Hord. unfold encode. apply bind_fuel; [|intros; apply compress_fuel].
  destruct data as [|b data].
  - by rewrite HuffmanTree_init_empty.
  - by destruct (HuffmanTree_init_ok set_iter Hord (b :: data)) as (r & -> & _).
Qed.

Lemma read_codes_fuel n u m : read_codes n u m ≠ OutOfFuel.
Proof.
  revert u m. induction n as [|n IH]; intros u m; simpl; [done|].
  repeat (apply bind_fuel;
          [auto using unpack_fuel, int2_fuel, bytes1_fuel
          |intros ? _; try case_match]).
  apply IH.
Qed.

Lemma read_symbols_fuel fuel coding_dict st :
  (bits_left (unpacker st) ≤ fuel)%nat →
  read_symbols fuel coding_dict st ≠ OutOfFuel.
Proof.
  revert st. induction fuel as [|fuel IH]; intros st Hfuel.
  - unfold bits_left in Hfuel. lia.
  - cbn [read_symbols]. case_match; [done|].
    apply bind_fuel.
    + unfold read_bit. apply bind_fuel; [apply unpack_fuel|].
      intros [s u] _. by case_match.
    + intros st' Hst'%read_bit_inv. apply IH. lia.
Qed.

Lemma decompress_fuel data : decompress data ≠ OutOfFuel.
Proof.
  unfold decompress. apply bind_fuel.
  - unfold read_header.
    repeat (apply bind_fuel;
            [auto using unpack_fuel, int2_fuel, read_codes_fuel
            |intros ? _; try case_match]).
    done.
  - intros [d st] _. by apply read_symbols_fuel.
Qed.

(** ** The concrete scenario *)

(** With the four symbols visited in the order A, B, C, D the codes are
    D = 00, C = 01, B = 10, A = 11; the header declares 4 symbols (first
    byte 3), the count field holds 14 and the payload takes 28 bits. *)
Example scenario_table :
  ∃ tree, HuffmanTree_init remove_dups ex_data = Ok tree
          ∧ HuffmanTree_to_dict tree
            = [(x44%byte, ["0"; "0"]%char); (x43%byte, ["0"; "1"]%char);
               (x42%byte, ["1"; "0"]%char); (x41%byte, ["1"; "1"]%char)].
Proof. eexists. split; vm_compute; reflexivity. Qed.

Example scenario_blob :
  encode remove_dups ex_data
  = Ok [x03; x44; x02; x10; xc0; x94; x20; x29; x04; x0b;
        x00; x00; x00; x0e; xff; xea; x95; x00]%byte.
Proof. vm_compute. reflexivity. Qed.

Example scenario_decode :
  decompress [x03; x44; x02; x10; xc0; x94; x20; x29; x04; x0b;
              x00; x00; x00; x0e; xff; xea; x95; x00]%byte
  = Ok ex_data.
Proof. vm_compute. reflexivity. Qed.

(** A count field cut short is read as the number its remaining bits spell:
    here 7 zero bits, so no symbol is owed and the answer is empty. *)
Example truncated_count_field :
  decompress [x00; x41; x01; x00]%byte = Ok [].
Proof. vm_compute. reflexivity. Qed.

(** A negative width is a [TypeError], a negative value never fits. *)
Example pack_negative :
  pack Packer_init 0 (-1) = Raise TypeError
  ∧ pack Packer_init (-1) 3 = Raise (AssertionError (does_not_fit (-1) 3)).
Proof. split; reflexivity. Qed.

(** * Further properties *)

(** ** Packer: sequences of packs *)

Lemma fits_concat v1 w1 v2 w2 :
  0 <= w1 → 0 <= w2 → fits v1 w1 → fits v2 w2 →
  fits (Z.lor (Z.shiftl v1 w2) v2) (w1 + w2).
Proof.
  unfold fits. intros H1 H2 F1 F2. apply fits_iff_bits; [lia|].
  intros j Hj. rewrite Z.lor_spec, Z.shiftl_spec by lia.
  rewrite (proj1 (fits_iff_bits v1 w1 H1) F1) by lia.
  rewrite (proj1 (fits_iff_bits v2 w2 H2) F2) by lia. done.
Qed.

(** Two packs in a row are one pack of the two values put side by side:
    [pack(v1, w1); pack(v2, w2)] leaves the packer as
    [pack((v1 << w2) | v2, w1 + w2)] does. *)
Theorem pack_pack (p : Packer) (v1 w1 v2 w2 : Z) :
  0 <= w1 → 0 <= w2 → fits v1 w1 → fits v2 w2 →
  (pack p v1 w1 ≫= λ p1, pack p1 v2 w2)
  = pack p (Z.lor (Z.shiftl v1 w2) v2) (w1 + w2).
Proof.
  intros H1 H2 F1 F2.
  rewrite (pack_ok p v1 w1), bind_Ok by done.
  rewrite pack_ok by done.
  rewrite pack_ok; [|lia|by apply fits_concat].
  f_equal. cbn [buffer bit_length]. f_equal; [|lia].
  rewrite Z.shiftl_lor, Z.shiftl_shiftl by done. by rewrite Z.lor_assoc.
Qed.

Lemma pack_pack_witness :
  (pack Packer_init 5 3 ≫= λ p1, pack p1 2 2)
  = pack Packer_init (Z.lor (Z.shiftl 5 2) 2) (3 + 2).
Proof. apply (pack_pack Packer_init 5 3 2 2); by vm_compute. Defined.

Lemma pack_inv p v w p' :
  pack p v w = Ok p' →
  0 <= w ∧ fits v w
  ∧ p' = {| buffer := Z.lor (Z.shiftl (buffer p) w) v;
            bit_length := bit_length p + w |}.
Proof.
  unfold pack, fits. destruct (Z.ltb_spec w 0); [done|].
  destruct (Z.eqb_spec (Z.land v (2 ^ w - 1)) v); [|done].
  by intros [= <-].
Qed.

Lemma pack_all_bits fields : ∀ p p',
  0 <= bit_length p → pack_all p fields = Ok p' →
  packer_bits p' = packer_bits p ++ fields_bits fields
  ∧ bit_length p' = bit_length p + total_width fields
  ∧ Forall (λ f, 0 <= f.2 ∧ fits f.1 f.2) fields.
Proof.
  unfold fields_bits.
  induction fields as [|[v w] fields IH]; intros p p' HL; simpl.
  - intros [= <-]. rewrite app_nil_r. split; [done|]. split; [lia|done].
  - intros (p1 & Hp1 & Hrest)%bind_Ok_inv.
    pose proof (pack_inv _ _ _ _ Hp1) as (Hw & Hfit & _).
    destruct (pack_bits p v w p1 Hw HL Hp1) as [Hb1 HL1].
    destruct (IH p1 p') as (Hb & HL' & Hall); [lia|done|].
    rewrite Hb, Hb1, HL', HL1, <- app_assoc.
    split; [done|]. split; [lia|]. by constructor.
Qed.

(** The invariant of a packer: whatever has been packed since it was
    created, [bit_length] is the sum of the widths and [buffer] is a
    non-negative number of at most [bit_length] bits. *)
Theorem pack_all_invariant (fields : list (Z * Z)) (p : Packer) :
  pack_all Packer_init fields = Ok p →
  bit_length p = total_width fields
  ∧ 0 <= bit_length p
  ∧ 0 <= buffer p < 2 ^ bit_length p.
Proof.
  assert (Hgen : ∀ fields p0 p,
    0 <= bit_length p0 → 0 <= buffer p0 < 2 ^ bit_length p0 →
    pack_all p0 fields = Ok p →
    0 <= bit_length p ∧ 0 <= buffer p < 2 ^ bit_length p).
  { clear. induction fields as [|[v w] fields IH]; intros p0 p HL HB; simpl.
    - by intros [= <-].
    - intros (p1 & Hp1 & Hrest)%bind_Ok_inv.
      apply pack_inv in Hp1 as (Hw & Hfit & ->).
      apply (IH _ _) in Hrest; [done|simpl; lia|]. simpl.
      apply fits_iff_range; [lia|].
      apply (fits_concat (buffer p0) (bit_length p0) v w); [done..| |done].
      by apply fits_range. }
  intros Hp.
  destruct (pack_all_bits fields Packer_init p) as (_ & HL & _); [done..|].
  destruct (Hgen fields Packer_init p) as [H1 H2]; [done|simpl; lia|done|].
  split; [by rewrite HL|done].
Qed.

Lemma pack_all_invariant_witness :
  bit_length (mkPacker 22 5) = total_width [(5, 3); (2, 2)]
  ∧ 0 <= bit_length (mkPacker 22 5)
  ∧ 0 <= buffer (mkPacker 22 5) < 2 ^ bit_length (mkPacker 22 5).
Proof. apply (pack_all_invariant [(5, 3); (2, 2)] (mkPacker 22 5)). reflexivity. Defined.

(** ** Packer and Unpacker together *)

Lemma fields_bits_cons v w fields :
  fields_bits ((v, w) :: fields) = bits_msb (Z.to_nat w) v ++ fields_bits fields.
Proof. done. Qed.

Lemma unpack_ints_fields d fields : ∀ pre post,
  Forall (λ f, 0 < f.2 ∧ fits f.1 f.2) fields →
  unpack_ints (cursor d pre (fields_bits fields ++ post)) fields.*2
  = Ok fields.*1.
Proof.
  induction fields as [|[v w] fields IH]; intros pre post Hall; [done|].
  apply Forall_cons in Hall as [[Hw Hfit] Hall]. simpl in Hw, Hfit.
  rewrite fields_bits_cons, <- app_assoc. cbn [fmap list_fmap snd fst unpack_ints].
  rewrite unpack_cursor;
    [|apply bits_msb_nonempty; lia|unfold len; rewrite bits_msb_length; lia].
  rewrite bind_Ok. cbv beta iota.
  rewrite int2_field; [|lia|].
  2:{ rewrite Z2Nat.id by lia. apply fits_iff_range; [lia|done]. }
  rewrite bind_Ok. by rewrite IH.
Qed.

(** What a packer wrote, an unpacker reads: after packing fields of at least
    one bit each into a fresh packer and flushing it, reading the same widths
    from the flushed bytes gives the values back, in order. *)
Theorem pack_flush_unpack (fields : list (Z * Z)) (p p' : Packer) (out : bytes) :
  Forall (λ f, 0 < f.2) fields →
  pack_all Packer_init fields = Ok p →
  flush p = Ok (out, p') →
  unpack_ints (Unpacker_init out) fields.*2 = Ok fields.*1.
Proof.
  intros Hpos Hpack Hflush.
  destruct (pack_all_bits fields Packer_init p) as (Hbits & HL & Hfits); [done..|].
  destruct (flush_bits p) as (out0 & Hout0 & _ & Hstr).
  { rewrite HL. simpl. clear -Hfits.
    induction Hfits as [|[v w] fields [Hw _] _ IH]; simpl in *; lia. }
  rewrite Hout0 in Hflush. injection Hflush as <- <-.
  change (Unpacker_init out0) with
    {| data := out0; data_bit_string := bit_string_of out0; bit_index := 0 |}.
  rewrite Hstr, Hbits.
  change (packer_bits Packer_init) with (@nil ascii). rewrite app_nil_l.
  change {| data := out0; data_bit_string := ?s ++ ?t; bit_index := 0 |}
    with (cursor out0 [] (s ++ t)).
  apply unpack_ints_fields.
  apply Forall_and. by split; [|eapply Forall_impl; [exact Hfits|]; intros ? []].
Qed.

Lemma pack_flush_unpack_witness :
  unpack_ints (Unpacker_init [xb0%byte]) [(5, 3); (2, 2)].*2
  = Ok [(5, 3); (2, 2)].*1.
Proof.
  apply (pack_flush_unpack [(5, 3); (2, 2)] (mkPacker 22 5) Packer_init).
  - repeat constructor.
  - reflexivity.
  - reflexivity.
Defined.

Lemma bit_string_of_fields data :
  bit_string_of data = fields_bits ((λ b, (int_of_byte b, 8)) <$> data).
Proof.
  induction data as [|b data IH]; [done|].
  change (bit_string_of (b :: data)) with (format_08b b ++ bit_string_of data).
  by rewrite fmap_cons, fields_bits_cons, IH, format_08b_bits.
Qed.

(** Read eight bits at a time, a byte string gives back its bytes. *)
Theorem unpack_bytes (data : bytes) :
  unpack_ints (Unpacker_init data) (replicate (length data) 8)
  = Ok (int_of_byte <$> data).
Proof.
  change (Unpacker_init data) with
    {| data := data; data_bit_string := bit_string_of data; bit_index := 0 |}.
  rewrite bit_string_of_fields, <- (app_nil_r (fields_bits _)).
  change {| data := data; data_bit_string := ?s ++ ?t; bit_index := 0 |}
    with (cursor data [] (s ++ t)).
  pose proof (unpack_ints_fields data ((λ b, (int_of_byte b, 8)) <$> data) [] [])
    as H.
  rewrite <- !list_fmap_compose in H.
  replace (snd ∘ (λ b : byte, (int_of_byte b, 8)) <$> data)
    with (replicate (length data) 8) in H.
  2:{ clear. induction data as [|x data IH]; [done|]. cbn. by f_equal. }
  apply H. apply Forall_fmap, Forall_true. intros b. simpl.
  split; [done|]. apply fits_range; [done|apply int_of_byte_range].
Qed.

(** ** Unpacker: consecutive reads *)

(** Two reads in a row return what one read of the two widths returns, cut
    in two, provided the first read leaves at least one bit unread. *)
Theorem unpack_unpack (u : Unpacker) (a b : Z) :
  0 <= bit_index u → 0 <= a → 0 <= b →
  bit_index u + a < len (data_bit_string u) →
  ∃ s1 u1 s2 u2,
    unpack u a = Ok (s1, u1)
    ∧ unpack u1 b = Ok (s2, u2)
    ∧ unpack u (a + b) = Ok (s1 ++ s2, u2).
Proof.
  intros Hi Ha Hb Hlt.
  set (u1 := {| data := data u; data_bit_string := data_bit_string u;
                bit_index := bit_index u + a |}).
  assert (H1 : unpack u1 b
               = Ok (take (Z.to_nat b)
                       (drop (Z.to_nat (bit_index u + a)) (data_bit_string u)),
                     {| data := data u; data_bit_string := data_bit_string u;
                        bit_index := bit_index u + a + b |})).
  { apply (unpack_nonempty u1 b); unfold u1; simpl; lia. }
  eexists _, u1, _, _. split; [apply unpack_nonempty; lia|].
  split; [exact H1|]. rewrite unpack_nonempty by lia. f_equal. f_equal.
  - rewrite !Z2Nat.inj_add, <- take_take_drop, drop_drop by lia. done.
  - f_equal. lia.
Qed.

Lemma unpack_unpack_witness :
  ∃ s1 u1 s2 u2,
    unpack (Unpacker_init [xb0%byte]) 3 = Ok (s1, u1)
    ∧ unpack u1 2 = Ok (s2, u2)
    ∧ unpack (Unpacker_init [xb0%byte]) (3 + 2) = Ok (s1 ++ s2, u2).
Proof. apply (unpack_unpack (Unpacker_init [xb0%byte]) 3 2); by vm_compute. Defined.

(** ** HuffmanTree: the symbols, the counts and the code lengths *)

(** The code table of the tree built over a non-empty input has one entry
    for each distinct byte of the input, and no other. *)
Theorem coding_dict_keys (set_iter : bytes → bytes) (data : bytes) :
  set_order set_iter → data ≠ [] →
  ∃ tree, HuffmanTree_init set_iter data = Ok tree
    ∧ NoDup (HuffmanTree_to_dict tree).*1
    ∧ (∀ b, b ∈ (HuffmanTree_to_dict tree).*1 ↔ b ∈ data)
    ∧ length (HuffmanTree_to_dict tree) = length (remove_dups data).
Proof.
  intros Hord Hne.
  destruct (coding_dict_ok set_iter Hord data Hne)
    as (tree & Hinit & _ & _ & _ & Hnd & Hcov & Hlen).
  exists tree. do 3 (split; [done|]). rewrite Hlen.
  apply Permutation_length, NoDup_Permutation;
    [apply Hord|apply NoDup_remove_dups|].
  intros b. rewrite elem_of_remove_dups. apply Hord.
Qed.

Lemma coding_dict_keys_witness :
  ∃ tree, HuffmanTree_init remove_dups ex_data = Ok tree
    ∧ NoDup (HuffmanTree_to_dict tree).*1
    ∧ (∀ b, b ∈ (HuffmanTree_to_dict tree).*1 ↔ b ∈ ex_data)
    ∧ length (HuffmanTree_to_dict tree) = length (remove_dups ex_data).
Proof. by apply (coding_dict_keys remove_dups ex_data remove_dups_order). Defined.

(** With [n] distinct bytes in the input, every code is shorter than [n]
    bits (so at most 255 bits, which the 8-bit length field can hold). *)
Theorem code_length_bound (set_iter : bytes → bytes) (data : bytes) :
  set_order set_iter → data ≠ [] →
  ∃ tree, HuffmanTree_init set_iter data = Ok tree
    ∧ ∀ s c, (s, c) ∈ HuffmanTree_to_dict tree →
        (length c < length (remove_dups data))%nat ∧ len c <= 255.
Proof.
  intros Hord Hne.
  destruct (coding_dict_ok set_iter Hord data Hne)
    as (tree & Hinit & _ & Hroot & Ht & Hnd & Hcov & Hlen).
  exists tree. split; [done|]. intros s c Hin. rewrite Ht in Hin.
  apply code_table_length in Hin; [|done]. simpl in Hin.
  assert (Hn : length (leaf_symbols (root tree)) = length (remove_dups data)).
  { rewrite <- (code_table_fst _ []), <- Ht by done.
    apply Permutation_length, NoDup_Permutation;
      [done|apply NoDup_remove_dups|].
    intros b. by rewrite elem_of_remove_dups. }
  pose proof (NoDup_bytes_length _ (NoDup_remove_dups data)).
  unfold len. lia.
Qed.

Lemma code_length_bound_witness :
  ∃ tree, HuffmanTree_init remove_dups ex_data = Ok tree
    ∧ ∀ s c, (s, c) ∈ HuffmanTree_to_dict tree →
        (length c < length (remove_dups ex_data))%nat ∧ len c <= 255.
Proof. by apply (code_length_bound remove_dups ex_data remove_dups_order). Defined.

Lemma total_occurences_perm l k :
  l ≡ₚ k → total_occurences l = total_occurences k.
Proof. induction 1; simpl in *; lia. Qed.

Lemma total_occurences_app l k :
  total_occurences (l ++ k) = total_occurences l + total_occurences k.
Proof. induction l; simpl in *; lia. Qed.

Lemma take_min_inv nodes n rest :
  take_min nodes = Ok (n, rest) → nodes ≡ₚ n :: rest.
Proof.
  unfold take_min. destruct (min_node nodes) as [[i m]|] eqn:Hmin; [|done].
  intros [= <- <-]. apply delete_Permutation. by apply min_node_lookup.
Qed.

Lemma merge_loop_counted data fuel : ∀ nodes res,
  Forall (counted data) nodes → merge_loop fuel nodes = Ok res →
  Forall (counted data) res ∧ total_occurences res = total_occurences nodes.
Proof.
  induction fuel as [|fuel IH]; intros nodes res Hall; cbn [merge_loop];
    destruct (1 <? len nodes); try done; try by intros [= <-].
  intros ([n1 rest1] & H1 & H)%bind_Ok_inv.
  apply bind_Ok_inv in H as ([n2 rest2] & H2 & H).
  apply take_min_inv in H1, H2. rewrite H2 in H1.
  rewrite H1 in Hall. apply Forall_cons in Hall as [Hn1 Hall].
  apply Forall_cons in Hall as [Hn2 Hall].
  apply IH in H as [Hres Hsum].
  - split; [done|]. rewrite Hsum, (total_occurences_perm _ _ H1).
    rewrite total_occurences_app. simpl. lia.
  - apply Forall_app. split; [done|]. apply Forall_singleton. by constructor.
Qed.

Lemma count_cons b data s :
  count (b :: data) s = (if decide (b = s) then 1 else 0) + count data s.
Proof.
  unfold count, len. rewrite filter_cons.
  destruct (decide (b = s)); simpl length; lia.
Qed.

Lemma sum_indicator (l : bytes) b :
  NoDup l → b ∈ l →
  foldr (λ s acc, (if decide (b = s) then 1 else 0) + acc) 0 l = 1.
Proof.
  induction 1 as [|x l Hx Hnd IH]; [by intros ?%elem_of_nil|].
  intros [-> | Hin]%elem_of_cons; simpl.
  - rewrite decide_True by done.
    assert (E : foldr (λ s acc, (if decide (x = s) then 1 else 0) + acc) 0 l = 0);
      [|lia].
    clear IH Hnd. induction l as [|y l IH]; [done|]. simpl.
    apply not_elem_of_cons in Hx as [Hne Hx]. rewrite decide_False by done.
    by rewrite IH.
  - rewrite decide_False by (intros ->; done). by rewrite IH.
Qed.

Lemma sum_counts (l data : bytes) :
  NoDup l → (∀ x, x ∈ data → x ∈ l) →
  foldr (λ s acc, count data s + acc) 0 l = len data.
Proof.
  intros Hnd. induction data as [|b data IH]; intros Hsub.
  - clear. induction l as [|s l IH]; [done|]. simpl. by rewrite IH.
  - assert (Hsplit : ∀ k : bytes,
      foldr (λ s acc, count (b :: data) s + acc) 0 k
      = foldr (λ s acc, (if decide (b = s) then 1 else 0) + acc) 0 k
        + foldr (λ s acc, count data s + acc) 0 k).
    { induction k as [|s k IHk]; [done|]. simpl. rewrite IHk, count_cons. lia. }
    rewrite Hsplit, sum_indicator, IH; [| |done|].
    + unfold len. simpl length. lia.
    + intros x Hx. apply Hsub. by right.
    + apply Hsub. left.
Qed.

(** The counts add up: every node of the tree holds the number of input
    bytes found at the leaves below it, and the root holds the length of
    the input. *)
Theorem root_count (set_iter : bytes → bytes) (data : bytes) :
  set_order set_iter → data ≠ [] →
  ∃ tree, HuffmanTree_init set_iter data = Ok tree
    ∧ counted data (root tree)
    ∧ occurences (root tree) = len data.
Proof.
  intros Hord Hne.
  destruct (merge_loop_spec (length (leaves_of set_iter data))
              (leaves_of set_iter data)) as (r & Hloop & _).
  { lia. }
  { unfold leaves_of. intros E%fmap_nil_inv.
    by apply (set_iter_nonempty set_iter Hord) in E. }
  { by apply leaves_of_huffman. }
  exists {| tree_data := data; root := r |}.
  split; [unfold HuffmanTree_init; by rewrite Hloop|]. simpl.
  apply (merge_loop_counted data) in Hloop as [Hall Hsum].
  2:{ unfold leaves_of. apply Forall_fmap, Forall_true. intros s. constructor. }
  rewrite Forall_singleton in Hall. split; [done|].
  simpl in Hsum. rewrite Z.add_0_r in Hsum. rewrite Hsum.
  rewrite <- (sum_counts (set_iter data) data);
    [|apply Hord|intros x Hx; by apply Hord].
  unfold leaves_of, total_occurences. clear.
  induction (set_iter data) as [|s l IH]; [done|].
  rewrite fmap_cons. cbn [foldr]. f_equal. exact IH.
Qed.

Lemma root_count_witness :
  ∃ tree, HuffmanTree_init remove_dups ex_data = Ok tree
    ∧ counted ex_data (root tree)
    ∧ occurences (root tree) = len ex_data.
Proof. by apply (root_count remove_dups ex_data remove_dups_order). Defined.

Lemma code_table_inhabited n path :
  huffman_node n → ∃ sym c, (sym, c) ∈ code_table n path.
Proof.
  intros Hn. pose proof (leaf_symbols_nonempty n Hn) as Hne.
  rewrite <- (code_table_fst n path Hn) in Hne.
  destruct (code_table n path) as [|[sym c] t]; [done|].
  exists sym, c. left.
Qed.

Lemma code_table_complete n :
  huffman_node n → ∀ path s, is_bits s →
  (∃ sym c, (sym, c) ∈ code_table n path ∧ c `prefix_of` path ++ s)
  ∨ (∃ sym c, (sym, c) ∈ code_table n path ∧ path ++ s `prefix_of` c).
Proof.
  induction 1 as [occ symbol|occ l r Hl IHl Hr IHr]; intros path s Hs.
  - left. exists symbol, path. split; [left|]. by apply prefix_app_r.
  - cbn [code_table]. destruct Hs as [|x s Hx Hs].
    + right. destruct (code_table_inhabited l (path ++ ["0"%char]) Hl)
        as (sym & c & Hin).
      exists sym, c. split; [apply elem_of_app; by left|].
      rewrite app_nil_r. apply code_table_prefix in Hin; [|done].
      etrans; [|exact Hin]. by apply prefix_app_r.
    + replace (path ++ x :: s) with ((path ++ [x]) ++ s)
        by by rewrite <- app_assoc.
      destruct Hx as [-> | ->].
      * destruct (IHl (path ++ ["0"%char]) s Hs) as [(sym & c & Hin & Hp)
                                                   |(sym & c & Hin & Hp)];
          [left|right]; exists sym, c; (split; [apply elem_of_app; by left|done]).
      * destruct (IHr (path ++ ["1"%char]) s Hs) as [(sym & c & Hin & Hp)
                                                   |(sym & c & Hin & Hp)];
          [left|right]; exists sym, c; (split; [apply elem_of_app; by right|done]).
Qed.

(** The code wastes no bit pattern: every string of bits either begins with
    the code of some symbol or is the beginning of one. *)
Theorem code_complete (set_iter : bytes → bytes) (data : bytes) :
  set_order set_iter → data ≠ [] →
  ∃ tree, HuffmanTree_init set_iter data = Ok tree
    ∧ ∀ s, is_bits s →
        (∃ sym c, (sym, c) ∈ HuffmanTree_to_dict tree ∧ c `prefix_of` s)
        ∨ (∃ sym c, (sym, c) ∈ HuffmanTree_to_dict tree ∧ s `prefix_of` c).
Proof.
  intros Hord Hne.
  destruct (coding_dict_ok set_iter Hord data Hne)
    as (tree & Hinit & _ & Hroot & Ht & _).
  exists tree. split; [done|]. intros s Hs. rewrite Ht.
  by apply (code_table_complete (root tree) Hroot [] s).
Qed.

Lemma code_complete_witness :
  ∃ tree, HuffmanTree_init remove_dups ex_data = Ok tree
    ∧ ∀ s, is_bits s →
        (∃ sym c, (sym, c) ∈ HuffmanTree_to_dict tree ∧ c `prefix_of` s)
        ∨ (∃ sym c, (sym, c) ∈ HuffmanTree_to_dict tree ∧ s `prefix_of` c).
Proof. by apply (code_complete remove_dups ex_data remove_dups_order). Defined.

(** ** decompress: what it can answer *)

Lemma bit_string_of_is_bits data : is_bits (bit_string_of data).
Proof.
  induction data as [|b data IH]; [constructor|].
  change (bit_string_of (b :: data)) with (format_08b b ++ bit_string_of data).
  apply Forall_app. split; [|done]. rewrite format_08b_bits. apply bits_msb_is_bits.
Qed.

Lemma unpack_cases u w :
  (∃ s u', unpack u w = Ok (s, u')) ∨ unpack u w = Raise (AssertionError no_data_left).
Proof. unfold unpack. destruct (is_empty u); eauto. Qed.

Lemma unpack_ok u w s u' :
  unpacker_ok u → 0 <= w → unpack u w = Ok (s, u') →
  is_bits s ∧ unpacker_ok u' ∧ len s <= w ∧ (0 < w → s ≠ []).
Proof.
  intros [Hbits Hi] Hw Hu. pose proof (unpack_short u w s u' Hi Hw Hu) as Hshort.
  apply unpack_inv in Hu as (He & -> & Hs & Hi').
  rewrite slice_from in * by done. split; [by apply Forall_take, Forall_drop|].
  split; [split; [by rewrite Hs|lia]|]. split; [done|].
  intros Hpos E. apply (f_equal length) in E.
  rewrite length_take, length_drop in E. unfold is_empty, len in He.
  destruct (Z.leb_spec (Z.of_nat (length (data_bit_string u))) (bit_index u));
    [done|]. simpl in E. lia.
Qed.

Lemma int2_ok s :
  is_bits s → s ≠ [] → ∃ v, int2 s = Ok v ∧ 0 <= v < 2 ^ len s.
Proof.
  intros Hs Hne. destruct (int2_code s Hs Hne) as (v & Hv & _).
  exists v. split; [done|]. by apply int2_range.
Qed.

(** Reading a field of [w >= 1] bits as a number. *)
Lemma unpack_int u w :
  unpacker_ok u → 0 < w →
  (∃ s u' v, unpack u w = Ok (s, u') ∧ int2 s = Ok v
             ∧ unpacker_ok u' ∧ 0 <= v < 2 ^ w)
  ∨ unpack u w = Raise (AssertionError no_data_left).
Proof.
  intros Hu Hw. destruct (unpack_cases u w) as [(s & u' & E)|E]; [left|by right].
  destruct (unpack_ok u w s u' Hu ltac:(lia) E) as (Hs & Hu' & Hlen & Hne).
  destruct (int2_ok s Hs (Hne Hw)) as (v & Hv & Hrange).
  exists s, u', v. do 3 (split; [done|]).
  assert (2 ^ len s <= 2 ^ w) by (apply Z.pow_le_mono_r; lia). lia.
Qed.

Lemma read_codes_cases n : ∀ u m,
  unpacker_ok u →
  (∃ m' u', read_codes n u m = Ok (m', u') ∧ unpacker_ok u')
  ∨ read_codes n u m = Raise (AssertionError no_data_left).
Proof.
  induction n as [|n IH]; intros u m Hu; cbn [read_codes]; [left; eauto|].
  destruct (unpack_int u 8 Hu) as [(s1 & u1 & symbol & -> & Hsym & Hu1 & Hr1)| ->];
    [done| |by right].
  rewrite bind_Ok. cbv beta iota. rewrite Hsym, bind_Ok.
  destruct (unpack_int u1 8 Hu1) as [(s2 & u2 & cl & -> & Hcl & Hu2 & Hr2)| ->];
    [done| |by right].
  rewrite bind_Ok. cbv beta iota. rewrite Hcl, bind_Ok.
  destruct (unpack_cases u2 cl) as [(code & u3 & E)| ->]; [|by right].
  destruct (unpack_ok u2 cl code u3 Hu2 ltac:(lia) E) as (_ & Hu3 & _).
  rewrite E, bind_Ok. cbv beta iota.
  destruct (bytes1_ok symbol) as (b & -> & _); [lia|]. rewrite bind_Ok.
  by apply IH.
Qed.

Lemma read_bit_cases coding_dict st :
  (∃ st', read_bit coding_dict st = Ok st')
  ∨ read_bit coding_dict st = Raise (AssertionError no_data_left).
Proof.
  unfold read_bit. destruct (unpack_cases (unpacker st) 1) as [(s & u & ->)| ->];
    [|by right].
  rewrite bind_Ok. cbv beta iota. left. destruct (coding_dict !! _); eauto.
Qed.

Lemma read_symbols_cases fuel coding_dict : ∀ st,
  (bits_left (unpacker st) ≤ fuel)%nat →
  exhausted_or_ok (read_symbols fuel coding_dict st).
Proof.
  induction fuel as [|fuel IH]; intros st Hfuel.
  - unfold bits_left in Hfuel. lia.
  - cbn [read_symbols]. destruct (symbols_to_read st =? 0); [left; eauto|].
    destruct (read_bit_cases coding_dict st) as [[st' E]| ->]; [|by right].
    rewrite E, bind_Ok. apply IH. apply read_bit_inv in E. lia.
Qed.

(** Whatever the bytes given to it, [decompress] either returns or fails
    with the no-data-left assertion of [unpack]: no other exception can
    come out of it. *)
Theorem decompress_outcomes (blob : bytes) :
  exhausted_or_ok (decompress blob).
Proof.
  unfold decompress, read_header.
  assert (Hu0 : unpacker_ok (Unpacker_init blob)).
  { split; [apply bit_string_of_is_bits|done]. }
  destruct (unpack_int _ 8 Hu0) as [(s1 & u1 & n & -> & Hn & Hu1 & Hr1)| ->];
    [done| |by right].
  rewrite bind_Ok. cbv beta iota. rewrite Hn, bind_Ok.
  destruct (read_codes_cases (Z.to_nat (n + 1)) u1 ∅ Hu1)
    as [(m & u2 & -> & Hu2)| ->]; [|by right].
  rewrite bind_Ok. cbv beta iota.
  destruct (unpack_int u2 32 Hu2) as [(s2 & u3 & k & -> & Hk & Hu3 & Hr3)| ->];
    [done| |by right].
  rewrite bind_Ok. cbv beta iota. rewrite Hk, !bind_Ok. cbv beta iota.
  by apply read_symbols_cases.
Qed.

(** ** decompress: the size and the alphabet of its output *)

Lemma bytes1_single v b : bytes1 v = Ok b → ∃ x, b = [x].
Proof. unfold bytes1. case_match; [|done]. intros [= <-]. eauto. Qed.

Lemma read_codes_values n : ∀ u m m' u',
  values_single m → read_codes n u m = Ok (m', u') → values_single m'.
Proof.
  induction n as [|n IH]; intros u m m' u' Hm; simpl.
  - by intros [= <- <-].
  - intros ([s1 u1] & _ & H)%bind_Ok_inv.
    apply bind_Ok_inv in H as (symbol & _ & H).
    apply bind_Ok_inv in H as ([s2 u2] & _ & H).
    apply bind_Ok_inv in H as (code_length & _ & H).
    apply bind_Ok_inv in H as ([code u3] & _ & H).
    apply bind_Ok_inv in H as (b & Hb & H).
    apply IH in H; [done|]. intros k v.
    destruct (decide (code = k)) as [<- | Hne].
    + rewrite lookup_insert_eq. intros [= <-]. by eapply bytes1_single.
    + rewrite lookup_insert_ne by done. apply Hm.
Qed.

Lemma read_header_inv blob coding_dict st :
  read_header blob = Ok (coding_dict, st) →
  values_single coding_dict
  ∧ 0 <= symbols_to_read st
  ∧ decompressed st = [].
Proof.
  unfold read_header. intros ([s1 u1] & H1 & H)%bind_Ok_inv.
  apply bind_Ok_inv in H as (n & Hn & H).
  apply bind_Ok_inv in H as ([m u2] & Hcodes & H).
  apply bind_Ok_inv in H as ([s2 u3] & H2 & H).
  apply bind_Ok_inv in H as (n2 & Hn2 & H).
  injection H as <- <-. simpl. split; [|split; [|done]].
  - eapply read_codes_values; [|exact Hcodes]. intros k v. by rewrite lookup_empty.
  - by apply int2_range in Hn2 as [? _].
Qed.

Lemma read_symbols_output coding_dict fuel : ∀ st out,
  values_single coding_dict →
  0 <= symbols_to_read st →
  read_symbols fuel coding_dict st = Ok out →
  len out = len (decompressed st) + symbols_to_read st
  ∧ ∀ b, b ∈ out →
      b ∈ decompressed st ∨ ∃ code, coding_dict !! code = Some [b].
Proof.
  induction fuel as [|fuel IH]; intros st out Hval Hn; cbn [read_symbols];
    destruct (Z.eqb_spec (symbols_to_read st) 0) as [E|E];
    try done; try (intros [= <-]; split; [lia|by left]).
  intros (st' & Hbit & Hrest)%bind_Ok_inv.
  unfold read_bit in Hbit. apply bind_Ok_inv in Hbit as ([s u] & _ & Hbit).
  destruct (coding_dict !! (bit_string st ++ s)) as [v|] eqn:Hlook;
    injection Hbit as <-.
  - destruct (Hval _ _ Hlook) as [x ->].
    apply IH in Hrest as [Hlen Hmem]; [|done|simpl; lia]. simpl in *. split.
    + unfold len in *. rewrite length_app in Hlen. simpl in Hlen. lia.
    + intros b Hb. destruct (Hmem b Hb) as [Hin | ?]; [|by right].
      apply elem_of_app in Hin as [?| ->%list_elem_of_singleton]; [by left|].
      right. eauto.
  - by apply IH in Hrest.
Qed.

(** When [decompress] returns, it returns as many bytes as the count field
    of the header announces. *)
Theorem decompress_length (blob : bytes) (coding_dict : gmap str bytes)
    (st0 : decoding) (out : bytes) :
  read_header blob = Ok (coding_dict, st0) →
  decompress blob = Ok out →
  len out = symbols_to_read st0.
Proof.
  intros Hhead Hout. unfold decompress in Hout. rewrite Hhead, bind_Ok in Hout.
  destruct (read_header_inv _ _ _ Hhead) as (Hval & Hn & Hdec).
  apply read_symbols_output in Hout as [Hlen _]; [|done..].
  rewrite Hdec in Hlen. simpl in Hlen. unfold len in *. simpl in *. lia.
Qed.

(** When [decompress] returns, every byte it returns is the symbol of some
    entry of the table read from the header. *)
Theorem decompress_alphabet (blob : bytes) (coding_dict : gmap str bytes)
    (st0 : decoding) (out : bytes) :
  read_header blob = Ok (coding_dict, st0) →
  decompress blob = Ok out →
  ∀ b, b ∈ out → ∃ code, coding_dict !! code = Some [b].
Proof.
  intros Hhead Hout. unfold decompress in Hout. rewrite Hhead, bind_Ok in Hout.
  destruct (read_header_inv _ _ _ Hhead) as (Hval & Hn & Hdec).
  apply read_symbols_output in Hout as [_ Hmem]; [|done..].
  intros b Hb. destruct (Hmem b Hb) as [Hin|?]; [|done].
  rewrite Hdec in Hin. by apply elem_of_nil in Hin.
Qed.

Lemma decompress_length_witness :
  ∃ coding_dict st0,
    read_header ab_encoded = Ok (coding_dict, st0)
    ∧ len [x41; x42]%byte = symbols_to_read st0.
Proof.
  eexists _, _. split; [vm_compute; reflexivity|].
  eapply (decompress_length ab_encoded); vm_compute; reflexivity.
Defined.

Lemma decompress_alphabet_witness :
  ∃ coding_dict st0,
    read_header ab_encoded = Ok (coding_dict, st0)
    ∧ ∀ b, b ∈ [x41; x42]%byte → ∃ code, coding_dict !! code = Some [b].
Proof.
  eexists _, _. split; [vm_compute; reflexivity|].
  eapply (decompress_alphabet ab_encoded); vm_compute; reflexivity.
Defined.

(** ** decompress: blobs it accepts *)

Lemma decompress_fields table data junk blob :
  valid_table table data → len data < 2 ^ 32 →
  bit_string_of blob = container_fields table data ++ junk →
  decompress blob = Ok data.
Proof.
  intros Hvt Hlen Hblob. pose proof (vt_size _ _ Hvt) as Hsize.
  unfold decompress, read_header.
  change (Unpacker_init blob) with
    {| data := blob; data_bit_string := bit_string_of blob; bit_index := 0 |}.
  rewrite Hblob. unfold container_fields. rewrite <- !app_assoc.
  change {| data := blob; data_bit_string := ?s ++ ?t; bit_index := 0 |}
    with (cursor blob [] (s ++ t)).
  rewrite unpack_cursor; [|by apply bits_msb_nonempty; lia
                          |by unfold len; rewrite bits_msb_length].
  rewrite bind_Ok. cbv beta iota.
  rewrite int2_field; [|lia|simpl; lia]. rewrite bind_Ok. cbv beta iota.
  replace (Z.to_nat (len table - 1 + 1)) with (length table) by (unfold len; lia).
  rewrite read_codes_table by apply Hvt. rewrite bind_Ok. cbv beta iota.
  rewrite unpack_cursor; [|by apply bits_msb_nonempty; lia
                          |by unfold len; rewrite bits_msb_length].
  rewrite bind_Ok. cbv beta iota.
  rewrite int2_field; [|lia|unfold len in *; simpl; lia].
  rewrite !bind_Ok. cbv beta iota. cbn [unpacker].
  apply (read_symbols_data table data Hvt); [by intros b|].
  unfold bits_left, cursor, len. cbn [data_bit_string bit_index].
  rewrite !length_app. lia.
Qed.

(** [decompress] does not need a table that came out of a Huffman tree, nor
    zero padding: any blob that starts with the fields of the format, for
    any table with one serialisable code per symbol and no code a prefix of
    another's, decodes to the data, whatever bits follow the payload. *)
Theorem decompress_conforming (table : list (byte * str)) (data : bytes)
    (junk : str) (blob : bytes) :
  valid_table table data → len data < 2 ^ 32 →
  bit_string_of blob = container_fields table data ++ junk →
  decompress blob = Ok data.
Proof. intros Hvt Hlen Hblob. by apply (decompress_fields table data junk). Qed.

Lemma ab_table_valid : valid_table ab_table [x41; x42; x41]%byte.
Proof.
  assert (Hmem : ∀ s c, (s, c) ∈ ab_table →
            (s = x41%byte ∧ c = ["0"%char])
            ∨ (s = x42%byte ∧ c = ["1"%char; "0"%char])).
  { intros s c. unfold ab_table. rewrite !elem_of_cons, elem_of_nil.
    intros [[= -> ->] | [[= -> ->] | []]]; auto. }
  split.
  - simpl. apply NoDup_cons. split; [|apply NoDup_singleton].
    by intros ?%list_elem_of_singleton.
  - intros b. simpl. rewrite !elem_of_cons, !elem_of_nil. tauto.
  - unfold len. simpl. lia.
  - intros s c [[-> ->] | [-> ->]]%Hmem;
      (split; [repeat (constructor; auto)|split; [done|unfold len; simpl; lia]]).
  - intros s1 c1 s2 c2 [[-> ->] | [-> ->]]%Hmem [[-> ->] | [-> ->]]%Hmem Hne;
      try done; split; intros [k Hk]; discriminate.
Qed.

Lemma decompress_conforming_witness :
  decompress ab_blob = Ok [x41; x42; x41]%byte.
Proof.
  apply (decompress_conforming ab_table [x41; x42; x41]%byte
           (replicate 9 "1"%char) ab_blob ab_table_valid).
  - by vm_compute.
  - vm_compute. reflexivity.
Defined.

(** Bytes that follow a blob of the encoder are ignored: the blob still
    decodes to the input. *)
Theorem decompress_ignores_trailing (set_iter : bytes → bytes)
    (data blob extra : bytes) :
  set_order set_iter → two_symbols data → len data < 2 ^ 32 →
  encode set_iter data = Ok blob →
  decompress (blob ++ extra) = Ok data.
Proof.
  intros Hord Htwo Hlen Henc.
  destruct (encode_bits set_iter Hord data Htwo Hlen)
    as (tree & blob' & pad & _ & Henc' & _ & Hvt & Hbits).
  rewrite Henc in Henc'. injection Henc' as <-.
  apply (decompress_fields (HuffmanTree_to_dict tree) data
           (replicate pad "0"%char ++ bit_string_of extra)); [done..|].
  rewrite bit_string_of_app, Hbits. unfold container, container_fields.
  by rewrite <- !app_assoc.
Qed.

Lemma decompress_ignores_trailing_witness :
  decompress (ab_encoded ++ [xff; x00]%byte) = Ok [x41; x42]%byte.
Proof.
  apply (decompress_ignores_trailing remove_dups [x41; x42]%byte ab_encoded
           [xff; x00]%byte remove_dups_order).
  - exists x41%byte, x42%byte. split; [left|]. split; [right; left|done].
  - by vm_compute.
  - vm_compute. reflexivity.
Defined.

(** ** Node._content_for_label *)

(** The label of a node is escaped so that it can be read back: undoing the
    two escapes gives the character of the symbol, or nothing for a node
    without content and for the symbol 0; no double quote is left on its
    own. *)
Theorem content_for_label_unescape (self : Node) :
  dot_unescape (Node_content_for_label self)
  = Some match content self with
         | Some b => if decide (int_of_byte b = 0) then [] else [chr b]
         | None => []
         end.
Proof.
  unfold Node_content_for_label. destruct (content self) as [b|]; [|done].
  destruct b; vm_compute; reflexivity.
Qed.

(** ** The size of the blob *)

Lemma len_app {A} (l k : list A) : len (l ++ k) = len l + len k.
Proof. unfold len. rewrite length_app. lia. Qed.

Lemma len_bits_msb w v : len (bits_msb w v) = Z.of_nat w.
Proof. unfold len. by rewrite bits_msb_length. Qed.

Lemma len_bind {A B} (f : A → list B) (l : list A) :
  len (l ≫= f) = sumZ ((λ x, len (f x)) <$> l).
Proof.
  induction l as [|x l IH]; [done|].
  by rewrite bind_cons, len_app, fmap_cons, IH.
Qed.

(** The blob of an input with two or more distinct byte values takes 40
    bits for the two count fields, 16 bits and its code for every table
    entry, and the code of every input byte, rounded up to whole bytes. *)
Theorem encoded_size (set_iter : bytes → bytes) (data : bytes) :
  set_order set_iter → two_symbols data → len data < 2 ^ 32 →
  ∃ tree blob,
    HuffmanTree_init set_iter data = Ok tree
    ∧ encode set_iter data = Ok blob
    ∧ len blob
      = (40
         + sumZ ((λ e, 16 + len e.2) <$> HuffmanTree_to_dict tree)
         + sumZ ((λ b, len (code_of (HuffmanTree_to_dict tree) b)) <$> data)
         + 7) / 8.
Proof.
  intros Hord Htwo Hlen.
  destruct (encode_bits set_iter Hord data Htwo Hlen)
    as (tree & blob & pad & Hinit & Henc & Hpad & _ & Hbits).
  exists tree, blob. do 2 (split; [done|]).
  pose proof (bit_string_of_length blob) as Hlen8.
  rewrite Hbits in Hlen8. unfold container in Hlen8.
  rewrite !len_app, !len_bind, !len_bits_msb in Hlen8.
  replace (len (replicate pad "0"%char)) with (Z.of_nat pad) in Hlen8
    by (unfold len; by rewrite length_replicate).
  assert (E : sumZ ((λ x, len (entry_bits x)) <$> HuffmanTree_to_dict tree)
              = sumZ ((λ e, 16 + len e.2) <$> HuffmanTree_to_dict tree)).
  { f_equal. apply list_fmap_ext. intros _ [s c] _. unfold entry_bits.
    rewrite !len_app, !len_bits_msb. simpl. lia. }
  rewrite E in Hlen8.
  apply Z.div_unique with (r := 7 - Z.of_nat pad); lia.
Qed.

Lemma encoded_size_witness :
  ∃ tree blob,
    HuffmanTree_init remove_dups ex_data = Ok tree
    ∧ encode remove_dups ex_data = Ok blob
    ∧ len blob
      = (40
         + sumZ ((λ e, 16 + len e.2) <$> HuffmanTree_to_dict tree)
         + sumZ ((λ b, len (code_of (HuffmanTree_to_dict tree) b)) <$> ex_data)
         + 7) / 8.
Proof.
  apply (encoded_size remove_dups ex_data remove_dups_order).
  - exists x41%byte, x42%byte. unfold ex_data.
    split; [left|]. split; [|done]. do 5 right. left.
  - vm_compute. reflexivity.
Defined.

(** ** Every outcome of the encoder *)

Lemma symbols_cases (data : bytes) :
  data = []
  ∨ (∃ b, data ≠ [] ∧ ∀ x, x ∈ data → x = b)
  ∨ two_symbols data.
Proof.
  destruct data as [|b data]; [by left|right].
  destruct (decide (Forall (λ x, x = b) data)) as [Hall | Hnot].
  - left. exists b. split; [done|]. intros x [-> | Hx]%elem_of_cons; [done|].
    by apply (proj1 (Forall_forall _ _) Hall).
  - right. apply not_Forall_Exists in Hnot; [|apply _].
    apply Exists_exists in Hnot as (x & Hx & Hne).
    exists b, x. split; [left|]. split; [by right|]. simpl in Hne. congruence.
Qed.

(** The encoder has four outcomes and the input decides which: a blob for
    two or more distinct byte values and fewer than 2^32 bytes, the
    does-not-fit assertion of the count field for 2^32 bytes or more,
    [ValueError] for one repeated byte value, [IndexError] for the empty
    input. It raises nothing else. *)
Theorem encode_outcomes (set_iter : bytes → bytes) (data : bytes) :
  set_order set_iter →
  match encode set_iter data with
  | Ok blob => two_symbols data ∧ len data < 2 ^ 32
  | Raise (AssertionError (does_not_fit v w)) =>
      two_symbols data ∧ 2 ^ 32 <= len data ∧ v = len data ∧ w = 32
  | Raise ValueError => data ≠ [] ∧ ¬ two_symbols data
  | Raise IndexError => data = []
  | _ => False
  end.
Proof.
  intros Hord.
  destruct (symbols_cases data) as [-> | [(b & Hne & Hall) | Htwo]].
  - unfold encode. by rewrite HuffmanTree_init_empty.
  - rewrite (one_symbol_ValueError set_iter b data) by done.
    split; [done|]. intros (x & y & Hx & Hy & Hxy).
    apply Hall in Hx, Hy. congruence.
  - destruct (decide (len data < 2 ^ 32)) as [Hlen | Hlen].
    + destruct (encode_bits set_iter Hord data Htwo Hlen)
        as (tree & blob & pad & _ & -> & _). done.
    + rewrite (encode_too_long set_iter Hord data Htwo) by lia.
      repeat split; [done|lia].
Qed.

Lemma encode_outcomes_witness :
  match encode remove_dups ex_data with
  | Ok blob => two_symbols ex_data ∧ len ex_data < 2 ^ 32
  | Raise (AssertionError (does_not_fit v w)) =>
      two_symbols ex_data ∧ 2 ^ 32 <= len ex_data ∧ v = len ex_data ∧ w = 32
  | Raise ValueError => ex_data ≠ [] ∧ ¬ two_symbols ex_data
  | Raise IndexError => ex_data = []
  | _ => False
  end.
Proof. apply (encode_outcomes remove_dups ex_data remove_dups_order). Defined.

(** ** The tree built is optimal *)

(** *** Paths in weighted trees *)

Lemma plug_app x fs gs : plug x (fs ++ gs) = plug (plug x fs) gs.
Proof.
  revert x. induction fs as [|[[] s] fs IH]; intros x; simpl; [done|apply IH..].
Qed.

Lemma plug_wsum x fs : wsum (plug x fs) = wsum x + path_wsum fs.
Proof.
  unfold path_wsum, sumZ. revert x.
  induction fs as [|[[] s] fs IH]; intros x; [simpl; lia|..];
    rewrite fmap_cons; cbn [plug foldr snd]; rewrite IH; cbn [wsum]; lia.
Qed.

Lemma plug_wcost x fs :
  wcost (plug x fs) = wcost x + wsum x * len fs + path_cost fs.
Proof.
  revert x. induction fs as [|[[] s] fs IH]; intros x; simpl.
  - unfold len. simpl. lia.
  - rewrite IH. unfold len. simpl length. simpl. lia.
  - rewrite IH. unfold len. simpl length. simpl. lia.
Qed.

Lemma plug_frontier x fs :
  frontier (plug x fs) ≡ₚ frontier x ++ path_frontier fs.
Proof.
  unfold path_frontier. revert x.
  induction fs as [|[[] s] fs IH]; intros x; simpl.
  - by rewrite app_nil_r.
  - rewrite IH. simpl. by rewrite <- app_assoc.
  - rewrite IH. simpl. rewrite <- app_assoc.
    by rewrite (app_assoc (frontier s)), (Permutation_app_comm (frontier s)),
      <- app_assoc.
Qed.

Lemma app_perm_cons_inv (a : Z) l r k :
  l ++ r ≡ₚ a :: k →
  (∃ l', l ≡ₚ a :: l' ∧ k ≡ₚ l' ++ r) ∨ (∃ r', r ≡ₚ a :: r' ∧ k ≡ₚ l ++ r').
Proof.
  intros Hp. assert (Ha : a ∈ l ++ r) by (rewrite Hp; left).
  apply elem_of_app in Ha as [Ha | Ha];
    apply elem_of_Permutation in Ha as [m Hm]; [left|right]; exists m;
    (split; [done|]); rewrite Hm in Hp.
  - simpl in Hp. by apply Permutation_cons_inv in Hp.
  - rewrite <- Permutation_middle in Hp. by apply Permutation_cons_inv in Hp.
Qed.

(** A leaf of weight [a] is at the end of some path. *)
Lemma find_leaf t : ∀ a k,
  frontier t ≡ₚ a :: k →
  ∃ fs, t = plug (WL a) fs ∧ path_frontier fs ≡ₚ k.
Proof.
  induction t as [w|l IHl r IHr]; intros a k Hp; simpl in Hp.
  - pose proof (Permutation_length Hp) as Hlen. destruct k; [|done].
    apply Permutation_singleton_r in Hp. injection Hp as ->.
    by exists [].
  - apply app_perm_cons_inv in Hp as [(l' & Hl & Hk) | (r' & Hr & Hk)].
    + destruct (IHl a l' Hl) as (fs & -> & Hfs).
      exists (fs ++ [(true, r)]). split; [by rewrite plug_app|].
      unfold path_frontier in *. rewrite bind_app, Hfs, Hk. simpl.
      by rewrite app_nil_r.
    + destruct (IHr a r' Hr) as (fs & -> & Hfs).
      exists (fs ++ [(false, l)]). split; [by rewrite plug_app|].
      unfold path_frontier in *. rewrite bind_app, Hfs, Hk. simpl.
      rewrite app_nil_r. apply Permutation_app_comm.
Qed.

Lemma sumZ_app l k : sumZ (l ++ k) = sumZ l + sumZ k.
Proof. unfold sumZ. induction l as [|x l IH]; simpl; lia. Qed.

Lemma sumZ_perm l k : l ≡ₚ k → sumZ l = sumZ k.
Proof. unfold sumZ. induction 1; simpl; lia. Qed.

Lemma wsum_frontier t : wsum t = sumZ (frontier t).
Proof.
  induction t as [w|l IHl r IHr]; simpl; [unfold sumZ; simpl; lia|].
  by rewrite IHl, IHr, sumZ_app.
Qed.

Lemma frontier_nonempty t : frontier t ≠ [].
Proof. induction t as [w|l IHl r IHr]; simpl; [done|]. by destruct (frontier l). Qed.

(** A subtree whose leaves all weigh [m] or more, with [m >= 0], weighs
    [m] or more. *)
Lemma wsum_lower t m :
  0 <= m → Forall (λ x, m <= x) (frontier t) → m <= wsum t.
Proof.
  intros Hm. induction t as [w|l IHl r IHr]; simpl.
  - intros H; by rewrite Forall_singleton in H.
  - intros [Hl Hr]%Forall_app. specialize (IHl Hl). specialize (IHr Hr). lia.
Qed.

Lemma wcost_nonneg t :
  Forall (λ x, 0 <= x) (frontier t) → 0 <= wcost t.
Proof.
  induction t as [w|l IHl r IHr]; simpl; [done|].
  intros [Hl Hr]%Forall_app. specialize (IHl Hl). specialize (IHr Hr).
  pose proof (wsum_lower l 0 ltac:(done) Hl).
  pose proof (wsum_lower r 0 ltac:(done) Hr). lia.
Qed.

(** *** Bringing the two lightest leaves together *)

Lemma path_cost_cons b s fs :
  path_cost ((b, s) :: fs) = wcost s + wsum s * (1 + len fs) + path_cost fs.
Proof. done. Qed.

Lemma path_wsum_cons b s fs : path_wsum ((b, s) :: fs) = wsum s + path_wsum fs.
Proof. done. Qed.

Lemma path_frontier_cons b s fs :
  path_frontier ((b, s) :: fs) = frontier s ++ path_frontier fs.
Proof. done. Qed.

Lemma sumZ_cons x l : sumZ (x :: l) = x + sumZ l.
Proof. done. Qed.

Lemma len_cons {A} (x : A) l : len (x :: l) = 1 + len l.
Proof. unfold len. simpl length. lia. Qed.

Lemma len_nonneg {A} (l : list A) : 0 <= len l.
Proof. unfold len. lia. Qed.

(** [w1] in one subtree and [w2] in the other, both lighter than every other
    leaf: the two subtrees can be rearranged into one tree where a single
    leaf of weight [w1 + w2] stands for the two, at a cost lower by at least
    [w1 + w2]. *)
Lemma join_two A B w1 w2 KA KB :
  frontier A ≡ₚ w1 :: KA → frontier B ≡ₚ w2 :: KB →
  0 <= w1 → w1 <= w2 → Forall (λ x, w2 <= x) KA → Forall (λ x, w2 <= x) KB →
  ∃ N, frontier N ≡ₚ (w1 + w2) :: KA ++ KB
       ∧ wsum N = wsum A + wsum B
       ∧ wcost N + w1 + w2 <= wcost A + wcost B + wsum A + wsum B.
Proof.
  intros HA HB H1 H12 HKA HKB.
  destruct (find_leaf A w1 KA HA) as (fa & -> & Hfa).
  destruct (find_leaf B w2 KB HB) as (fb & -> & Hfb).
  rewrite <- Hfa in HKA. rewrite <- Hfb in HKB.
  rewrite !plug_wcost, !plug_wsum. cbn [wcost wsum].
  destruct (Z.lt_trichotomy (len fa) (len fb)) as [Hlt | [Heq | Hgt]].
  - (* w2 is deeper: take it out, put the joint leaf where w1 is *)
    destruct fb as [|[sd S] fb']; [unfold len in Hlt; simpl in Hlt; lia|].
    rewrite path_frontier_cons in HKB. apply Forall_app in HKB as [HS HKB].
    pose proof (wsum_lower S w2 ltac:(lia) HS) as HwS.
    exists (WN (plug (WL (w1 + w2)) fa) (plug S fb')).
    cbn [frontier wsum wcost].
    rewrite !plug_frontier, !plug_wcost, !plug_wsum. cbn [frontier wcost wsum].
    rewrite path_cost_cons, path_wsum_cons, len_cons in *.
    split; [|split; [lia|]].
    + rewrite <- Hfa, <- Hfb, path_frontier_cons. simpl.
      apply Permutation_skip. by rewrite !app_assoc, (Permutation_app_comm _ (frontier S)).
    + pose proof (len_nonneg fa). nia.
  - (* same depth *)
    destruct fa as [|[sd S] fa'].
    + destruct fb as [|f fb']; [|unfold len in Heq; simpl in Heq; lia].
      exists (WL (w1 + w2)). cbn [frontier wsum wcost plug].
      unfold path_frontier, path_wsum, sumZ, len in *. simpl in *.
      rewrite <- Hfa, <- Hfb. split; [done|]. lia.
    + rewrite path_frontier_cons in HKA. apply Forall_app in HKA as [HS HKA].
      exists (WN (plug (WL (w1 + w2)) fa') (plug S fb)).
      cbn [frontier wsum wcost].
      rewrite !plug_frontier, !plug_wcost, !plug_wsum. cbn [frontier wcost wsum].
      rewrite path_cost_cons, path_wsum_cons, len_cons in *.
      split; [|split; [lia|]].
      * rewrite <- Hfa, <- Hfb, path_frontier_cons. simpl.
        apply Permutation_skip.
        rewrite (app_assoc (path_frontier fa')),
          (Permutation_app_comm (path_frontier fa') (frontier S)).
        by rewrite <- !app_assoc.
      * nia.
  - (* w1 is deeper: take it out, put the joint leaf where w2 is *)
    destruct fa as [|[sd S] fa']; [unfold len in Hgt; simpl in Hgt; lia|].
    rewrite path_frontier_cons in HKA. apply Forall_app in HKA as [HS HKA].
    pose proof (wsum_lower S w2 ltac:(lia) HS) as HwS.
    exists (WN (plug S fa') (plug (WL (w1 + w2)) fb)).
    cbn [frontier wsum wcost].
    rewrite !plug_frontier, !plug_wcost, !plug_wsum. cbn [frontier wcost wsum].
    rewrite path_cost_cons, path_wsum_cons, len_cons in *.
    split; [|split; [lia|]].
    + rewrite <- Hfa, <- Hfb, path_frontier_cons. simpl.
      rewrite <- Permutation_middle. apply Permutation_skip.
      by rewrite <- !app_assoc.
    + pose proof (len_nonneg fb). nia.
Qed.

(** In any tree, the two lightest leaves can be replaced by one leaf of
    their joint weight, in a tree that costs their joint weight less. *)
Lemma join_lightest U : ∀ w1 w2 K,
  frontier U ≡ₚ w1 :: w2 :: K →
  0 <= w1 → w1 <= w2 → Forall (λ x, w2 <= x) K →
  ∃ U', frontier U' ≡ₚ (w1 + w2) :: K
        ∧ wsum U' = wsum U
        ∧ wcost U' + w1 + w2 <= wcost U.
Proof.
  induction U as [w|L IHL R IHR]; intros w1 w2 K Hp H1 H12 HK.
  - apply Permutation_length in Hp. done.
  - cbn [frontier] in Hp.
    apply app_perm_cons_inv in Hp as [(L1 & HL1 & Hp) | (R1 & HR1 & Hp)].
    + symmetry in Hp.
      apply app_perm_cons_inv in Hp as [(L2 & HL2 & Hp) | (R2 & HR2 & Hp)].
      * (* both on the left *)
        rewrite HL2 in HL1. rewrite Hp in HK. apply Forall_app in HK as [HK2 _].
        destruct (IHL w1 w2 L2 HL1 H1 H12 HK2) as (L' & HfL & HwL & HcL).
        exists (WN L' R). cbn [frontier wsum wcost].
        rewrite HfL, Hp. split; [done|]. lia.
      * rewrite Hp in HK. apply Forall_app in HK as [HKL HKR].
        destruct (join_two L R w1 w2 L1 R2 HL1 HR2 H1 H12 HKL HKR)
          as (N & HfN & HwN & HcN).
        exists N. cbn [wsum wcost]. rewrite HfN, Hp. split; [done|]. lia.
    + symmetry in Hp.
      apply app_perm_cons_inv in Hp as [(L2 & HL2 & Hp) | (R2 & HR2 & Hp)].
      * rewrite Hp in HK. apply Forall_app in HK as [HKL HKR].
        destruct (join_two R L w1 w2 R1 L2 HR1 HL2 H1 H12 HKR HKL)
          as (N & HfN & HwN & HcN).
        exists N. cbn [wsum wcost]. rewrite HfN, Hp.
        split; [by rewrite (Permutation_app_comm R1)|]. lia.
      * (* both on the right *)
        rewrite HR2 in HR1. rewrite Hp in HK. apply Forall_app in HK as [_ HK2].
        destruct (IHR w1 w2 R2 HR1 H1 H12 HK2) as (R' & HfR & HwR & HcR).
        exists (WN L R'). cbn [frontier wsum wcost].
        rewrite HfR, Hp. split; [by rewrite Permutation_middle|]. lia.
Qed.

(** *** The merge loop against every weighted tree *)

Lemma min_node_least nodes : ∀ i n,
  min_node nodes = Some (i, n) →
  Forall (λ m, occurences n <= occurences m) nodes.
Proof.
  induction nodes as [|m ms IH]; intros i n; simpl; [done|].
  destruct (min_node ms) as [[j k]|] eqn:Hmin.
  - specialize (IH j k eq_refl).
    destruct (Z.ltb_spec (occurences k) (occurences m)); intros [= <- <-].
    + constructor; [lia|done].
    + constructor; [lia|]. eapply Forall_impl; [exact IH|]. simpl. lia.
  - intros [= <- <-]. destruct ms as [|m' ms]; [by constructor|].
    simpl in Hmin. destruct (min_node ms) as [[??]|]; [|done].
    by destruct (_ <? _).
Qed.

Lemma take_min_least nodes n rest :
  take_min nodes = Ok (n, rest) →
  nodes ≡ₚ n :: rest ∧ Forall (λ m, occurences n <= occurences m) rest.
Proof.
  intros H. pose proof (take_min_inv _ _ _ H) as Hp. split; [done|].
  unfold take_min in H. destruct (min_node nodes) as [[i m]|] eqn:Hmin; [|done].
  injection H as <- <-. apply min_node_least in Hmin.
  rewrite Hp in Hmin. by apply Forall_cons in Hmin as [_ ?].
Qed.

Lemma merge_loop_optimal fuel : ∀ nodes root,
  Forall (λ n, 0 <= occurences n) nodes →
  merge_loop fuel nodes = Ok [root] →
  ∀ U, frontier U ≡ₚ occurences <$> nodes →
       internal_sum root - sumZ (internal_sum <$> nodes) <= wcost U.
Proof.
  assert (Hone : ∀ root U,
    0 <= occurences root → frontier U ≡ₚ [occurences root] →
    internal_sum root - sumZ (internal_sum <$> [root]) <= wcost U).
  { intros root U Hr HU. unfold sumZ. simpl.
    assert (0 <= wcost U); [|lia]. apply wcost_nonneg. rewrite HU.
    by apply Forall_singleton. }
  induction fuel as [|fuel IH]; intros nodes root Hpos; cbn [merge_loop];
    destruct (1 <? len nodes); try done;
    try (intros [= ->] U HU; apply Hone; [by rewrite Forall_singleton in Hpos|done]).
  intros ([n1 rest1] & H1 & H)%bind_Ok_inv.
  apply bind_Ok_inv in H as ([n2 rest2] & H2 & Hloop).
  apply take_min_least in H1 as [Hp1 Hmin1], H2 as [Hp2 Hmin2].
  rewrite Hp2 in Hp1, Hmin1. apply Forall_cons in Hmin1 as [H12 _].
  intros U HU. rewrite Hp1 in HU, Hpos. rewrite !fmap_cons in HU.
  apply Forall_cons in Hpos as [Hn1 Hpos]. apply Forall_cons in Hpos as [Hn2 Hpos].
  destruct (join_lightest U _ _ _ HU Hn1 H12) as (U' & HfU' & _ & HcU').
  { by apply Forall_fmap. }
  set (p := mkNode None (occurences n1 + occurences n2) (Some n1) (Some n2)) in *.
  specialize (IH (rest2 ++ [p]) root).
  assert (Hle : internal_sum root - sumZ (internal_sum <$> rest2 ++ [p]) <= wcost U').
  { apply IH; [|done|].
    - apply Forall_app. split; [done|]. apply Forall_singleton. simpl. lia.
    - rewrite HfU', fmap_app. simpl. apply Permutation_cons_append. }
  rewrite (sumZ_perm _ _ (fmap_Permutation internal_sum _ _ Hp1)).
  rewrite !fmap_cons, !sumZ_cons.
  rewrite fmap_app, sumZ_app, fmap_cons, sumZ_cons in Hle.
  change (sumZ (internal_sum <$> [])) with 0 in Hle.
  unfold p in Hle. cbn [internal_sum] in Hle. lia.
Qed.

(** *** From weighted trees back to code tables *)

Lemma counted_wtree data t :
  counted data t →
  occurences t = wsum (wtree_of (count data) t)
  ∧ internal_sum t = wcost (wtree_of (count data) t).
Proof. induction 1 as [s|l r Hl [IHl1 IHl2] Hr [IHr1 IHr2]]; simpl; lia. Qed.

Lemma wtree_frontier weight t :
  huffman_node t → frontier (wtree_of weight t) = weight <$> leaf_symbols t.
Proof.
  induction 1 as [occ s|occ l r Hl IHl Hr IHr]; simpl; [done|].
  by rewrite IHl, IHr, fmap_app.
Qed.

Lemma code_table_cost weight t :
  huffman_node t → ∀ path,
  sumZ ((λ e, weight e.1 * len e.2) <$> code_table t path)
  = wcost (wtree_of weight t) + len path * wsum (wtree_of weight t).
Proof.
  induction 1 as [occ s|occ l r Hl IHl Hr IHr]; intros path;
    cbn [code_table wtree_of wcost wsum].
  - unfold sumZ. simpl. lia.
  - rewrite fmap_app, sumZ_app, IHl, IHr, !len_app.
    change (len ["0"%char]) with 1. change (len ["1"%char]) with 1. lia.
Qed.

Lemma sumZ_fmap_add {A} (f g : A → Z) l :
  sumZ ((λ x, f x + g x) <$> l) = sumZ (f <$> l) + sumZ (g <$> l).
Proof.
  induction l as [|x l IH]; [done|]. rewrite !fmap_cons, !sumZ_cons, IH. lia.
Qed.

Lemma sumZ_fmap_zero {A} (f : A → Z) l :
  (∀ x, x ∈ l → f x = 0) → sumZ (f <$> l) = 0.
Proof.
  induction l as [|x l IH]; intros H; [done|].
  rewrite fmap_cons, sumZ_cons, IH, H; [done|left|].
  intros y Hy. apply H. by right.
Qed.

Lemma sumZ_fmap_ext {A} (f g : A → Z) l :
  (∀ x, f x = g x) → sumZ (f <$> l) = sumZ (g <$> l).
Proof. intros H. f_equal. apply list_fmap_ext. auto. Qed.

Lemma code_len_indicator (table : list (byte * str)) b :
  NoDup table.*1 → b ∈ table.*1 →
  sumZ ((λ e, (if decide (b = e.1) then 1 else 0) * len e.2) <$> table)
  = len (code_of table b).
Proof.
  unfold code_of.
  induction table as [|[s c] table IH]; [by intros _ ?%elem_of_nil|].
  rewrite !fmap_cons, sumZ_cons. cbn [fst snd dict_get].
  intros [Hs Hnd]%NoDup_cons Hin. destruct (decide (s = b)) as [-> | Hne].
  - rewrite decide_True by done. rewrite sumZ_fmap_zero; [lia|].
    intros [s' c'] Hin'. cbn [fst snd]. rewrite decide_False; [done|].
    intros ->. apply Hs. apply list_elem_of_fmap. by exists (s', c').
  - rewrite decide_False by done. apply elem_of_cons in Hin as [-> | Hin]; [done|].
    rewrite IH by done. lia.
Qed.

Lemma payload_len_table (table : list (byte * str)) data :
  NoDup table.*1 → (∀ b, b ∈ data → b ∈ table.*1) →
  payload_len table data
  = sumZ ((λ e, count data e.1 * len e.2) <$> table).
Proof.
  intros Hnd. unfold payload_len. induction data as [|b data IH]; intros Hcov.
  - symmetry. by apply sumZ_fmap_zero.
  - rewrite fmap_cons, sumZ_cons.
    rewrite IH by (intros x Hx; apply Hcov; by right).
    rewrite <- (code_len_indicator table b Hnd) by (apply Hcov; left).
    rewrite <- sumZ_fmap_add. apply sumZ_fmap_ext.
    intros e. rewrite count_cons. lia.
Qed.

Lemma count_nonneg data s : 0 <= count data s.
Proof. unfold count, len. lia. Qed.

Lemma leaves_internal_sum set_iter data :
  sumZ (internal_sum <$> leaves_of set_iter data) = 0.
Proof.
  apply sumZ_fmap_zero. unfold leaves_of.
  by intros n (s & -> & _)%list_elem_of_fmap.
Qed.

Lemma leaves_occurences set_iter data :
  occurences <$> leaves_of set_iter data = count data <$> set_iter data.
Proof. unfold leaves_of. rewrite <- list_fmap_compose. done. Qed.

Lemma tree_payload_len data t :
  huffman_node t → NoDup (leaf_symbols t) →
  (∀ b, b ∈ data → b ∈ leaf_symbols t) →
  payload_len (Node_to_dict t None) data = wcost (wtree_of (count data) t).
Proof.
  intros Ht Hnd Hcov.
  rewrite to_dict_None, to_dict_code_table by done.
  rewrite payload_len_table; rewrite ?code_table_fst by done; [|done..].
  rewrite (code_table_cost (count data) t Ht []). change (len []) with 0. lia.
Qed.

(** The tree of a non-empty input, with what the merge loop guarantees:
    no weighted tree over the counts of the symbols costs less. *)
Lemma init_optimal set_iter data :
  set_order set_iter → data ≠ [] →
  ∃ r, HuffmanTree_init set_iter data = Ok {| tree_data := data; root := r |}
    ∧ huffman_node r
    ∧ leaf_symbols r ≡ₚ set_iter data
    ∧ ∀ U, frontier U ≡ₚ count data <$> set_iter data →
           wcost (wtree_of (count data) r) <= wcost U.
Proof.
  intros Hord Hne.
  destruct (merge_loop_spec (length (leaves_of set_iter data))
              (leaves_of set_iter data)) as (r & Hloop & Hr & Hleaves).
  { lia. }
  { unfold leaves_of. intros E%fmap_nil_inv.
    by apply (set_iter_nonempty set_iter Hord) in E. }
  { by apply leaves_of_huffman. }
  rewrite leaves_of_symbols in Hleaves. exists r.
  split; [unfold HuffmanTree_init; by rewrite Hloop|]. do 2 (split; [done|]).
  assert (Hall : Forall (counted data) (leaves_of set_iter data)).
  { unfold leaves_of. apply Forall_fmap, Forall_true. intros s. constructor. }
  assert (Hpos : Forall (λ n, 0 <= occurences n) (leaves_of set_iter data)).
  { unfold leaves_of. apply Forall_fmap, Forall_true. intros s.
    apply count_nonneg. }
  destruct (merge_loop_counted data _ _ _ Hall Hloop) as [Hcounted _].
  rewrite Forall_singleton in Hcounted.
  destruct (counted_wtree data r Hcounted) as [_ <-].
  intros U HU.
  pose proof (merge_loop_optimal _ _ r Hpos Hloop U) as Hopt.
  rewrite leaves_internal_sum, Z.sub_0_r in Hopt. apply Hopt.
  by rewrite leaves_occurences.
Qed.

(** The tree built is optimal: whatever other binary tree carries the
    distinct bytes of the input at its leaves, the codes read off it make
    the payload at least as long as the codes of the tree built do. *)
Theorem huffman_optimal (set_iter : bytes → bytes) (data : bytes) (other : Node) :
  set_order set_iter → data ≠ [] →
  huffman_node other → leaf_symbols other ≡ₚ remove_dups data →
  ∃ tree, HuffmanTree_init set_iter data = Ok tree
    ∧ payload_len (HuffmanTree_to_dict tree) data
      <= payload_len (Node_to_dict other None) data.
Proof.
  intros Hord Hne Hother Hperm.
  assert (Hset : set_iter data ≡ₚ remove_dups data).
  { apply NoDup_Permutation; [apply Hord|apply NoDup_remove_dups|].
    intros b. rewrite elem_of_remove_dups. apply Hord. }
  destruct (init_optimal set_iter data Hord Hne) as (r & Hinit & Hr & Hleaves & Hopt).
  eexists. split; [exact Hinit|].
  unfold HuffmanTree_to_dict. cbn [root].
  rewrite !tree_payload_len.
  - apply Hopt. rewrite wtree_frontier by done. by rewrite Hperm, Hset.
  - done.
  - rewrite Hperm. apply NoDup_remove_dups.
  - intros b Hb. rewrite Hperm. by apply elem_of_remove_dups.
  - done.
  - rewrite Hleaves. apply Hord.
  - intros b Hb. rewrite Hleaves. by apply Hord.
Qed.

Lemma huffman_optimal_witness :
  ∃ tree, HuffmanTree_init remove_dups ex_data = Ok tree
    ∧ payload_len (HuffmanTree_to_dict tree) ex_data
      <= payload_len (Node_to_dict lopsided_tree None) ex_data.
Proof.
  apply (huffman_optimal remove_dups ex_data lopsided_tree remove_dups_order).
  - done.
  - repeat constructor.
  - vm_compute. reflexivity.
Defined.

(** *** More frequent, not longer *)

Lemma swap_bytes_involutive a b x : swap_bytes a b (swap_bytes a b x) = x.
Proof. unfold swap_bytes. repeat case_decide; congruence. Qed.

Lemma swap_bytes_perm a b (l : bytes) :
  NoDup l → a ∈ l → b ∈ l → swap_bytes a b <$> l ≡ₚ l.
Proof.
  intros Hnd Ha Hb. apply NoDup_Permutation; [|done|].
  - apply NoDup_fmap_2; [|done]. intros x y E.
    rewrite <- (swap_bytes_involutive a b x), E. apply swap_bytes_involutive.
  - intros x. rewrite list_elem_of_fmap. split.
    + intros (y & -> & Hy). unfold swap_bytes. by repeat case_decide.
    + intros Hx. exists (swap_bytes a b x).
      split; [by rewrite swap_bytes_involutive|].
      unfold swap_bytes. by repeat case_decide.
Qed.

Lemma sumZ_fmap_scale {A} k (f : A → Z) l :
  sumZ ((λ x, k * f x) <$> l) = k * sumZ (f <$> l).
Proof.
  induction l as [|x l IH]; [unfold sumZ; simpl; lia|].
  rewrite !fmap_cons, !sumZ_cons, IH. lia.
Qed.

(** With the weights of [a] and [b] exchanged, the cost of a code table
    changes by the difference of the weights times the difference of the
    two code lengths. *)
Lemma swap_cost (weight : byte → Z) (table : list (byte * str)) a b :
  NoDup table.*1 → a ∈ table.*1 → b ∈ table.*1 → a ≠ b →
  sumZ ((λ e, weight (swap_bytes a b e.1) * len e.2) <$> table)
  = sumZ ((λ e, weight e.1 * len e.2) <$> table)
    + (weight b - weight a) * (len (code_of table a) - len (code_of table b)).
Proof.
  intros Hnd Ha Hb Hab.
  rewrite <- (code_len_indicator table a Hnd Ha).
  rewrite <- (code_len_indicator table b Hnd Hb).
  rewrite Z.mul_sub_distr_l, <- !sumZ_fmap_scale.
  assert (E : ∀ x y : Z, x - y = x + (-1) * y) by (intros; lia).
  rewrite E, <- sumZ_fmap_scale, <- !sumZ_fmap_add.
  apply sumZ_fmap_ext. intros [s c]. cbn [fst snd]. unfold swap_bytes.
  repeat case_decide; subst; try done; lia.
Qed.

(** More frequent, not longer: of two bytes of the input, the one that
    occurs more often gets a code that is at most as long as the code of
    the other. *)
Theorem frequent_not_longer (set_iter : bytes → bytes) (data : bytes) (a b : byte) :
  set_order set_iter → a ∈ data → b ∈ data →
  count data a < count data b →
  ∃ tree, HuffmanTree_init set_iter data = Ok tree
    ∧ len (code_of (HuffmanTree_to_dict tree) b)
      <= len (code_of (HuffmanTree_to_dict tree) a).
Proof.
  intros Hord Ha Hb Hlt.
  assert (Hne : data ≠ []) by (intros ->; by apply elem_of_nil in Ha).
  destruct (init_optimal set_iter data Hord Hne) as (r & Hinit & Hr & Hleaves & Hopt).
  eexists. split; [exact Hinit|].
  unfold HuffmanTree_to_dict. cbn [root].
  assert (Hnd : NoDup (leaf_symbols r)) by (rewrite Hleaves; apply Hord).
  assert (Ha' : a ∈ leaf_symbols r) by (rewrite Hleaves; by apply Hord).
  assert (Hb' : b ∈ leaf_symbols r) by (rewrite Hleaves; by apply Hord).
  rewrite to_dict_None, to_dict_code_table by done.
  pose proof (swap_cost (count data) (code_table r []) a b) as Hswap.
  rewrite code_table_fst in Hswap by done.
  specialize (Hswap Hnd Ha' Hb' ltac:(intros ->; lia)).
  pose proof (code_table_cost (λ s, count data (swap_bytes a b s)) r Hr []) as E1.
  pose proof (code_table_cost (count data) r Hr []) as E2.
  cbv beta in E1. rewrite E1, E2 in Hswap. change (len []) with 0 in Hswap.
  specialize (Hopt (wtree_of (λ s, count data (swap_bytes a b s)) r)).
  rewrite wtree_frontier in Hopt by done.
  assert (Hperm : (λ s, count data (swap_bytes a b s)) <$> leaf_symbols r
                  ≡ₚ count data <$> set_iter data).
  { rewrite <- Hleaves.
    rewrite (list_fmap_compose (swap_bytes a b) (count data)).
    by rewrite swap_bytes_perm. }
  specialize (Hopt Hperm). nia.
Qed.

Lemma frequent_not_longer_witness :
  ∃ tree, HuffmanTree_init remove_dups ex_data = Ok tree
    ∧ len (code_of (HuffmanTree_to_dict tree) x41%byte)
      <= len (code_of (HuffmanTree_to_dict tree) x44%byte).
Proof.
  apply (frequent_not_longer remove_dups ex_data x44%byte x41%byte
           remove_dups_order).
  - unfold ex_data. repeat (first [left | right]; try done).
  - unfold ex_data. left.
  - vm_compute. reflexivity.
Defined.
